(** * A shallow embedding of the fluent_libc CLI parser

    Sources: [src/type/type.h], [src/value/value.h], [src/app/app.h],
    [src/cli.h] and [src/help/generator.h].

    Modelling choices:
    - the fluent hashmaps are stdpp [gmap]s; a schema map is keyed by the
      (non-null) name strings, the maps of [argv_t] are keyed by
      [option string], because [parse_argv] inserts under [command_name],
      which may still be the NULL pointer ([None]);
    - [cli_value_t] entries are stored by value; an entry registered under
      a name and an alias is the same value under both keys;
    - allocations (hashmaps, vectors, value cells) are modelled as always
      succeeding;
    - the numeric conversions [atoi_convert] (fluent_libc) and [atof]
      (libc) are outside this repository: the parser is parametric in them
      (section variables); a C [float] is modelled as a primitive float. *)

From Stdlib Require Import ZArith Floats Ascii.
From stdpp Require Import base gmap strings list.

Open Scope string_scope.

(** ** [cli_type_t] (src/type/type.h) *)
Inductive cli_type_t :=
| CLI_TYPE_STATIC
| CLI_TYPE_STRING
| CLI_TYPE_INTEGER
| CLI_TYPE_FLOAT
| CLI_TYPE_ARRAY.

#[global] Instance cli_type_t_eq_dec : EqDecision cli_type_t.
Proof. solve_decision. Defined.

(** ** [cli_value_t] (src/value/value.h): a schema entry *)
Record cli_value_t := cli_new_value {
  description : string;
  type : cli_type_t;
  alias : option string;      (** NULL is [None] *)
  required : bool
}.

(** ** [cli_i_value_t] (src/value/value.h): a parsed value cell *)
Record cli_i_value_t := mk_i_value {
  value : option string;
  vec_value : option (list string);
  num_val : Z;
  float_val : float
}.

Definition empty_i_value : cli_i_value_t :=
  mk_i_value None None 0%Z PrimFloat.zero.

(** What the [cli_i_value_t *] slots of the result maps hold: either the
    sentinel pointer [(cli_i_value_t * )1] used for static flags, or a
    freshly allocated value cell. *)
Inductive i_ptr :=
| sentinel_true
| cell (v : cli_i_value_t).

(** ** [cli_app_t] (src/app/app.h) *)
Record cli_app_t := mk_app {
  flags : gmap string cli_value_t;
  commands : gmap string cli_value_t;
  required_flags : gmap string cli_value_t
}.

(** [cli_new_app] with every allocation succeeding. *)
Definition cli_new_app : cli_app_t := mk_app ∅ ∅ ∅.

Definition set_flags (app : cli_app_t) m := mk_app m (commands app) (required_flags app).
Definition set_commands (app : cli_app_t) m := mk_app (flags app) m (required_flags app).
Definition set_required (app : cli_app_t) m := mk_app (flags app) (commands app) m.

(** [cli_has_value]: a name exists in flags or in commands. *)
Definition cli_has_value (app : cli_app_t) (name : string) : bool :=
  bool_decide (is_Some (flags app !! name)) || bool_decide (is_Some (commands app !! name)).

(** [cli_insert_flag]: the returned pair is the C return value and the
    schema after the call. Note that the canonical name is inserted before
    the alias is checked. *)
Definition cli_insert_flag (app : cli_app_t) (flag_name : string) (v : cli_value_t)
  : bool * cli_app_t :=
  if cli_has_value app flag_name then (false, app)
  else
    let app1 := set_flags app (<[flag_name := v]> (flags app)) in
    let finish (a : cli_app_t) :=
      (true, if required v
             then set_required a (<[flag_name := v]> (required_flags a))
             else a) in
    match alias v with
    | Some al =>
        if cli_has_value app1 al then (false, app1)
        else finish (set_flags app1 (<[al := v]> (flags app1)))
    | None => finish app1
    end.

(** [cli_insert_command] *)
Definition cli_insert_command (app : cli_app_t) (command_name : string) (v : cli_value_t)
  : bool * cli_app_t :=
  if cli_has_value app command_name then (false, app)
  else
    let app1 := set_commands app (<[command_name := v]> (commands app)) in
    match alias v with
    | Some al =>
        if cli_has_value app1 al then (false, app1)
        else (true, set_commands app1 (<[al := v]> (commands app1)))
    | None => (true, app1)
    end.

(** ** [argv_t] (src/cli.h) *)
Record argv_t := mk_argv {
  success : bool;
  command : option cli_i_value_t;   (** [None]: the field was never assigned *)
  statics : gmap (option string) i_ptr;
  strings : gmap (option string) i_ptr;
  integers : gmap (option string) i_ptr;
  floats : gmap (option string) i_ptr;
  arrays : gmap (option string) i_ptr;
  cmd_ptr : option cli_value_t
}.

Definition argv_set_success (a : argv_t) b :=
  mk_argv b (command a) (statics a) (strings a) (integers a) (floats a) (arrays a) (cmd_ptr a).
Definition argv_set_command (a : argv_t) c :=
  mk_argv (success a) (Some c) (statics a) (strings a) (integers a) (floats a) (arrays a) (cmd_ptr a).
Definition argv_set_statics (a : argv_t) m :=
  mk_argv (success a) (command a) m (strings a) (integers a) (floats a) (arrays a) (cmd_ptr a).
Definition argv_set_strings (a : argv_t) m :=
  mk_argv (success a) (command a) (statics a) m (integers a) (floats a) (arrays a) (cmd_ptr a).
Definition argv_set_integers (a : argv_t) m :=
  mk_argv (success a) (command a) (statics a) (strings a) m (floats a) (arrays a) (cmd_ptr a).
Definition argv_set_floats (a : argv_t) m :=
  mk_argv (success a) (command a) (statics a) (strings a) (integers a) m (arrays a) (cmd_ptr a).
Definition argv_set_cmd_ptr (a : argv_t) p :=
  mk_argv (success a) (command a) (statics a) (strings a) (integers a) (floats a) (arrays a) (Some p).

(** The result as [parse_argv] sets it up: [success = 1], five empty
    hashmaps, [cmd_ptr = NULL], [command] not yet assigned. *)
Definition argv_init : argv_t := mk_argv true None ∅ ∅ ∅ ∅ ∅ None.

(** The local command value, zero-initialised at the top of [parse_argv]. *)
Definition command_init : cli_i_value_t := empty_i_value.

(** ** The state threaded through the loop of [parse_argv]

    [ps_app] is the schema, whose [required_flags] the loop mutates;
    [ps_args] is [parsed_args]; [ps_command] is the local [command];
    [array_values] is the current vector ([None] for NULL). *)
Record parse_state := mk_ps {
  ps_app : cli_app_t;
  ps_args : argv_t;
  ps_command : cli_i_value_t;
  waiting_value : bool;
  parsing_command : bool;
  parsing_array : bool;
  array_values : option (list string);
  last_type : cli_type_t;
  command_type : cli_type_t;
  command_name : option string
}.

Definition ps_init (app : cli_app_t) : parse_state :=
  mk_ps app argv_init command_init false false false None
        CLI_TYPE_STATIC CLI_TYPE_STATIC None.

Definition set_app st x := mk_ps x (ps_args st) (ps_command st) (waiting_value st)
  (parsing_command st) (parsing_array st) (array_values st) (last_type st) (command_type st) (command_name st).
Definition set_args st x := mk_ps (ps_app st) x (ps_command st) (waiting_value st)
  (parsing_command st) (parsing_array st) (array_values st) (last_type st) (command_type st) (command_name st).
Definition set_command st x := mk_ps (ps_app st) (ps_args st) x (waiting_value st)
  (parsing_command st) (parsing_array st) (array_values st) (last_type st) (command_type st) (command_name st).
Definition set_waiting st x := mk_ps (ps_app st) (ps_args st) (ps_command st) x
  (parsing_command st) (parsing_array st) (array_values st) (last_type st) (command_type st) (command_name st).
Definition set_parsing_command st x := mk_ps (ps_app st) (ps_args st) (ps_command st) (waiting_value st)
  x (parsing_array st) (array_values st) (last_type st) (command_type st) (command_name st).
Definition set_parsing_array st x := mk_ps (ps_app st) (ps_args st) (ps_command st) (waiting_value st)
  (parsing_command st) x (array_values st) (last_type st) (command_type st) (command_name st).
Definition set_array_values st x := mk_ps (ps_app st) (ps_args st) (ps_command st) (waiting_value st)
  (parsing_command st) (parsing_array st) x (last_type st) (command_type st) (command_name st).
Definition set_last_type st x := mk_ps (ps_app st) (ps_args st) (ps_command st) (waiting_value st)
  (parsing_command st) (parsing_array st) (array_values st) x (command_type st) (command_name st).
Definition set_command_type st x := mk_ps (ps_app st) (ps_args st) (ps_command st) (waiting_value st)
  (parsing_command st) (parsing_array st) (array_values st) (last_type st) x (command_name st).
Definition set_command_name st x := mk_ps (ps_app st) (ps_args st) (ps_command st) (waiting_value st)
  (parsing_command st) (parsing_array st) (array_values st) (last_type st) (command_type st) x.

(** One iteration either continues the loop or returns from [parse_argv];
    a return carries [parsed_args] and the schema as mutated so far. *)
Inductive loop_res :=
| Next (st : parse_state)
| Stop (r : argv_t * cli_app_t).

(** A failure return: [success = 0]; [set_cmd] tells whether the code
    assigns [parsed_args.command = command] before returning (two of the
    failure paths do not). *)
Definition fail_ret (st : parse_state) (set_cmd : bool) : loop_res :=
  let a := argv_set_success (ps_args st) false in
  Stop (if set_cmd then argv_set_command a (ps_command st) else a, ps_app st).

(** [hashmap_cli_value_remove(app->required_flags, flag_name)] *)
Definition remove_required (st : parse_state) (flag_name : string) : parse_state :=
  let app := ps_app st in
  set_app st (set_required app (delete flag_name (required_flags app))).

(** [argv_t_process_array]: a fresh empty vector, array mode, waiting. *)
Definition argv_t_process_array (st : parse_state) : parse_state :=
  set_waiting (set_parsing_array (set_array_values st (Some [])) true) true.

(** [vec_cli_push(array_values, arg)] *)
Definition vec_cli_push (v : option (list string)) (arg : string) : option (list string) :=
  match v with Some l => Some (l ++ [arg])%list | None => None end.

Definition push_array (st : parse_state) (arg : string) : parse_state :=
  set_array_values st (vec_cli_push (array_values st) arg).

Definition insert_statics (st : parse_state) (k : option string) (p : i_ptr) :=
  set_args st (argv_set_statics (ps_args st) (<[k := p]> (statics (ps_args st)))).
Definition insert_strings (st : parse_state) (k : option string) (p : i_ptr) :=
  set_args st (argv_set_strings (ps_args st) (<[k := p]> (strings (ps_args st)))).
Definition insert_integers (st : parse_state) (k : option string) (p : i_ptr) :=
  set_args st (argv_set_integers (ps_args st) (<[k := p]> (integers (ps_args st)))).
Definition insert_floats (st : parse_state) (k : option string) (p : i_ptr) :=
  set_args st (argv_set_floats (ps_args st) (<[k := p]> (floats (ps_args st)))).

Definition is_array_type (t : cli_type_t) : bool :=
  match t with CLI_TYPE_ARRAY => true | _ => false end.

(** ** [parse_argv] (src/cli.h) *)
Section Parser.

(** [atoi_convert] (fluent_libc) and [atof] (libc). *)
Variable atoi_convert : string -> Z.
Variable atof : string -> float.
(** The contents of the block [malloc] returns for a value cell: the code
    sets one field and leaves the others uninitialised, so they are
    whatever the allocator hands back at that point of the parse. *)
Variable malloc_cell : parse_state -> string -> cli_i_value_t.

(** A flag token: [arg[0] == '-']; [after_dash] is [arg + 1]. *)
Definition flag_step (st : parse_state) (after_dash : string) : loop_res :=
  if waiting_value st && negb (parsing_array st) then fail_ret st true
  else if waiting_value st && parsing_array st then fail_ret st false
  else
    let st := set_parsing_array st false in
    let resolve (st : parse_state) (flag_name : string) : loop_res :=
      match flags (ps_app st) !! flag_name with
      | None => fail_ret st true
      | Some flag =>
          match type flag with
          | CLI_TYPE_ARRAY => Next (argv_t_process_array st)
          | _ =>
              let st :=
                match type flag with
                | CLI_TYPE_STATIC =>
                    insert_statics (set_waiting st false) (Some flag_name) sentinel_true
                | _ => st
                end in
              Next (set_last_type (set_waiting (set_parsing_command st false) true)
                                  (type flag))
          end
      end in
    match after_dash with
    | String c rest =>
        if Ascii.eqb c "-"%char then
          let flag_name := rest in                  (* long flag: skip "--" *)
          resolve (remove_required st flag_name) flag_name
        else
          let flag_name := after_dash in            (* short flag: skip "-" *)
          if bool_decide (flag_name = "") then fail_ret st true
          else resolve (remove_required st flag_name) flag_name
    | EmptyString => fail_ret st true               (* single dash *)
    end.

(** A token that is not a flag, while a value is awaited. *)
Definition value_step (st : parse_state) (arg : string) : loop_res :=
  if parsing_array st then Next (push_array st arg)
  else
    let parse_type := if parsing_command st then command_type st else last_type st in
    let fresh := malloc_cell st arg in
    let after :=
      match parse_type with
      | CLI_TYPE_INTEGER =>
          let int_value := atoi_convert arg in
          if parsing_command st then
            Next (set_parsing_command
                    (set_command st (mk_i_value (value (ps_command st)) (vec_value (ps_command st))
                                       int_value (float_val (ps_command st)))) false)
          else
            Next (insert_integers st (command_name st)
                    (cell (mk_i_value (value fresh) (vec_value fresh) int_value (float_val fresh))))
      | CLI_TYPE_STATIC =>
          if parsing_command st then fail_ret st true
          else Next (insert_statics st (command_name st) sentinel_true)
      | CLI_TYPE_ARRAY => Next (push_array st arg)
      | CLI_TYPE_STRING =>
          if parsing_command st then
            Next (set_parsing_command
                    (set_command st (mk_i_value (Some arg) (vec_value (ps_command st))
                                       (num_val (ps_command st)) (float_val (ps_command st)))) false)
          else
            Next (insert_strings st (command_name st)
                    (cell (mk_i_value (Some arg) (vec_value fresh) (num_val fresh) (float_val fresh))))
      | CLI_TYPE_FLOAT =>
          let float_value := atof arg in
          if parsing_command st then
            Next (set_parsing_command
                    (set_command st (mk_i_value (value (ps_command st)) (vec_value (ps_command st))
                                       (num_val (ps_command st)) float_value)) false)
          else
            Next (insert_floats st (command_name st)
                    (cell (mk_i_value (value fresh) (vec_value fresh) (num_val fresh) float_value)))
      end in
    match after with
    | Next st' => Next (set_waiting st' (is_array_type parse_type))
    | r => r
    end.

(** A token that is not a flag, while no value is awaited. *)
Definition command_step (st : parse_state) (arg : string) : loop_res :=
  match command_name st with
  | None =>
      if waiting_value st then fail_ret st false
      else
        let st := set_command_name st (Some arg) in
        match commands (ps_app st) !! arg with
        | None => fail_ret st true
        | Some command_value =>
            let st := set_command_type st (type command_value) in
            let st := set_waiting st true in
            let st := set_parsing_array st (is_array_type (type command_value)) in
            let st := set_parsing_command st true in
            let st := set_args st (argv_set_cmd_ptr (ps_args st) command_value) in
            if parsing_array st then Next (argv_t_process_array st) else Next st
        end
  | Some _ => fail_ret st true                     (* a second command *)
  end.

(** One iteration of the [for] loop. *)
Definition step (st : parse_state) (arg : string) : loop_res :=
  match arg with
  | String c after_dash =>
      if Ascii.eqb c "-"%char then flag_step st after_dash
      else if waiting_value st then value_step st arg else command_step st arg
  | EmptyString => if waiting_value st then value_step st arg else command_step st arg
  end.

Fixpoint run_loop (st : parse_state) (args : list string) : loop_res :=
  match args with
  | [] => Next st
  | arg :: rest =>
      match step st arg with
      | Next st' => run_loop st' rest
      | Stop r => Stop r
      end
  end.

(** The check after the loop. *)
Definition final_check (st : parse_state) : argv_t * cli_app_t :=
  if (waiting_value st && negb (parsing_array st))
     || bool_decide (command_name st = None)
     || negb (bool_decide (required_flags (ps_app st) = ∅))
  then (argv_set_command (argv_set_success (ps_args st) false) (ps_command st), ps_app st)
  else (argv_set_command (ps_args st) (ps_command st), ps_app st).

(** [parse_argv(argc, argv, app)] with [argc = length argv]: the loop starts
    at index 1. The result is [parsed_args] together with the schema, whose
    [required_flags] the call mutates. *)
Definition parse_argv (argv : list string) (app : cli_app_t) : argv_t * cli_app_t :=
  match run_loop (ps_init app) (tail argv) with
  | Stop r => r
  | Next st => final_check st
  end.

End Parser.

(** ** Flag tokens and the required-flags set

    The name the loop strips from a flag token and removes from
    [required_flags]: [arg + 2] for a long flag, [arg + 1] for a short one;
    [None] for a token that does not start with ['-'] and for a bare ["-"]
    (rejected before any removal). *)
Definition flag_token_name (arg : string) : option string :=
  match arg with
  | String c after_dash =>
      if Ascii.eqb c "-"%char then
        match after_dash with
        | String c2 rest => if Ascii.eqb c2 "-"%char then Some rest else Some after_dash
        | EmptyString => None
        end
      else None
  | EmptyString => None
  end.

(** A token that starts with ['-']. *)
Definition is_flag_token (arg : string) : bool :=
  match arg with String c _ => Ascii.eqb c "-"%char | EmptyString => false end.

Definition delete_opt (k : option string) (m : gmap string cli_value_t) :=
  match k with Some n => delete n m | None => m end.

(** The required-flags set after the loop has gone through [args]: every
    name stripped from a flag token is removed. *)
Fixpoint remove_all (m : gmap string cli_value_t) (args : list string) :=
  match args with
  | [] => m
  | a :: rest => remove_all (delete_opt (flag_token_name a) m) rest
  end.

(** ** [cli_generate_help] (src/help/generator.h)

    The generator reads the schema through a small state monad whose state
    is the schema: nothing in the C code writes to it. [str_pad] is the
    fluent_libc padding primitive, a section variable; the order in which
    the hashmap iterator visits the entries is that of [map_to_list]. *)
Definition HelpM (A : Type) := cli_app_t -> A * cli_app_t.
Definition help_ret {A} (x : A) : HelpM A := fun s => (x, s).
Definition help_bind {A B} (m : HelpM A) (k : A -> HelpM B) : HelpM B :=
  fun s => let (x, s') := m s in k x s'.
Definition help_get : HelpM cli_app_t := fun s => (s, s).
Notation "'let*' x := m 'in' k" := (help_bind m (fun x => k)) (at level 200, x name, m at level 100, k at level 200).

Definition nl : string := String (Ascii.ascii_of_nat 10) EmptyString.

Section Help.

Variable str_pad : nat -> string -> string.

Definition type_suffix (t : cli_type_t) : string :=
  match t with
  | CLI_TYPE_STRING => " (string)"
  | CLI_TYPE_INTEGER => " (integer)"
  | CLI_TYPE_FLOAT => " (float)"
  | CLI_TYPE_ARRAY => " (array)"
  | CLI_TYPE_STATIC => ""
  end.

(** The body of the [while] loop of [write_app_values] for one entry. *)
Definition write_entry (is_flag : bool) (padding_size : nat)
    (builder : string) (entry : string * cli_value_t) : string :=
  let (key, v) := entry in
  let skip := match alias v with Some al => bool_decide (al = key) | None => false end in
  if skip then builder
  else
    let builder := if is_flag then builder ++ "  --" else builder in
    let value_builder :=
      key ++ match alias v with
             | Some al => (if is_flag then ", -" else ", ") ++ al
             | None => ""
             end in
    let builder := builder ++ str_pad padding_size value_builder in
    let builder := builder ++ description v in
    let builder := builder ++ type_suffix (type v) in
    builder ++ nl.

Definition write_app_values (builder : string) (map : cli_app_t -> gmap string cli_value_t)
    (is_flag : bool) (padding_size : nat) : HelpM string :=
  let* app := help_get in
  help_ret (fold_left (write_entry is_flag padding_size) (map_to_list (map app)) builder).

Definition help_body (name desc : string) (padding_size : nat) : HelpM string :=
  let* app := help_get in
  let builder := name ++ " - " ++ desc ++ nl ++ nl ++ "Usage: " ++ name
                 ++ " [flags...] <command> [flags...] <value> [flags...]" ++ nl ++ nl in
  let* builder := (if bool_decide (flags app <> ∅)
              then write_app_values (builder ++ "AVAILABLE FLAGS:" ++ nl) flags true padding_size
              else help_ret builder) in
  if bool_decide (commands app <> ∅)
  then write_app_values (builder ++ nl ++ "AVAILABLE COMMANDS:" ++ nl) commands false padding_size
  else help_ret builder.

(** [cli_generate_help(app, name, desc, padding_size)]: a NULL argument is
    [None]; the second component is the schema after the call. *)
Definition cli_generate_help (app : option cli_app_t) (name desc : option string)
    (padding_size : nat) : option string * option cli_app_t :=
  match app, name, desc with
  | Some a, Some n, Some d =>
      let (text, a') := help_body n d padding_size a in (Some text, Some a')
  | _, _, _ => (None, app)
  end.

End Help.

(** ** Concrete conversions for the concrete runs below

    A permissive base-10 [atoi]: optional sign, then the leading digits;
    [0] when there are none. [atof_int] reads the same prefix as a float.
    No run below depends on which conversion is chosen. *)
Fixpoint digits_value (acc : Z) (s : string) : Z :=
  match s with
  | String c rest =>
      let n := Z.of_nat (nat_of_ascii c) in
      if (48 <=? n)%Z && (n <=? 57)%Z then digits_value (acc * 10 + (n - 48))%Z rest
      else acc
  | EmptyString => acc
  end.

Definition atoi_decimal (s : string) : Z :=
  match s with
  | String "-"%char rest => (- digits_value 0 rest)%Z
  | String "+"%char rest => digits_value 0 rest
  | _ => digits_value 0 s
  end.

Definition atof_int (s : string) : float :=
  let n := atoi_decimal s in
  let f := PrimFloat.of_uint63 (Uint63.of_Z (Z.abs n)) in
  if (n <? 0)%Z then PrimFloat.opp f else f.

(** An allocator whose blocks come back filled with junk. *)
Definition malloc_junk (st : parse_state) (arg : string) : cli_i_value_t :=
  mk_i_value (Some "junk") (Some ["junk"]) 7%Z PrimFloat.one.

Definition parse (argv : list string) (app : cli_app_t) : argv_t * cli_app_t :=
  parse_argv atoi_decimal atof_int malloc_junk argv app.

(** The schema of the first scenario: [--verbose]/[-v] (static) and the
    command [build] (string). *)
Definition verbose_entry := cli_new_value "Verbose output" CLI_TYPE_STATIC (Some "v") false.
Definition build_entry := cli_new_value "Build a file" CLI_TYPE_STRING None false.
Definition app_verbose_build : cli_app_t :=
  snd (cli_insert_command (snd (cli_insert_flag cli_new_app "verbose" verbose_entry))
                          "build" build_entry).

(** Schemas of the concrete runs. *)
Definition out_entry := cli_new_value "Output file" CLI_TYPE_STRING (Some "o") true.
Definition app_out_build : cli_app_t :=
  snd (cli_insert_command (snd (cli_insert_flag cli_new_app "out" out_entry))
                          "build" build_entry).

Definition tags_entry := cli_new_value "Tags" CLI_TYPE_ARRAY None false.
Definition opt_entry := cli_new_value "Option" CLI_TYPE_STRING None false.
Definition run_entry := cli_new_value "Run a target" CLI_TYPE_STRING None false.
Definition app_tags_run : cli_app_t :=
  snd (cli_insert_command
         (snd (cli_insert_flag (snd (cli_insert_flag cli_new_app "tags" tags_entry))
                               "opt" opt_entry))
         "run" run_entry).

Definition n_entry := cli_new_value "A number" CLI_TYPE_INTEGER None false.
Definition app_n_build : cli_app_t :=
  snd (cli_insert_command (snd (cli_insert_flag cli_new_app "n" n_entry)) "build" build_entry).

Definition a_entry := cli_new_value "Flag a" CLI_TYPE_STATIC None false.
Definition b_entry := cli_new_value "Flag b" CLI_TYPE_STATIC (Some "a") false.
Definition app_a : cli_app_t := snd (cli_insert_flag cli_new_app "a" a_entry).

Definition x_entry := cli_new_value "Flag x" CLI_TYPE_STATIC None true.
Definition app_opt_x_build : cli_app_t :=
  snd (cli_insert_command
         (snd (cli_insert_flag (snd (cli_insert_flag cli_new_app "opt" opt_entry))
                               "x" x_entry))
         "build" build_entry).

Definition d_entry := cli_new_value "Command d" CLI_TYPE_STRING (Some "a") false.

Definition files_entry := cli_new_value "Process files" CLI_TYPE_ARRAY None false.
Definition app_files : cli_app_t :=
  snd (cli_insert_command (snd (cli_insert_flag cli_new_app "verbose" verbose_entry))
                          "files" files_entry).

(** The loop state after [pre], for the concrete runs. *)
Definition loop_state (app : cli_app_t) (pre : list string) : parse_state :=
  match run_loop atoi_decimal atof_int malloc_junk (ps_init app) pre with
  | Next st => st
  | Stop _ => ps_init app
  end.

(** ** Setting up a schema

    A program calls [cli_new_app] once and then [cli_insert_flag] and
    [cli_insert_command] in some order; [register] is one such call, whose
    boolean result the caller may ignore. *)
Inductive registration :=
| reg_flag (name : string) (v : cli_value_t)
| reg_command (name : string) (v : cli_value_t).

Definition register (app : cli_app_t) (r : registration) : cli_app_t :=
  match r with
  | reg_flag n v => snd (cli_insert_flag app n v)
  | reg_command n v => snd (cli_insert_command app n v)
  end.

(** ** Invariants of the loop of [parse_argv]

    [cmd_inv seen st]: either no command has been seen, and the local
    [command] and [parsing_command] are as initialised; or the command is a
    registered one named by one of the tokens [seen], [cmd_ptr] points to its
    entry, and a STATIC command leaves the loop waiting for a value. *)
Definition cmd_inv (seen : list string) (st : parse_state) : Prop :=
  (command_name st = None /\ ps_command st = command_init /\ parsing_command st = false) \/
  (exists c e, command_name st = Some c /\ In c seen /\ commands (ps_app st) !! c = Some e /\
     cmd_ptr (ps_args st) = Some e /\
     (type e = CLI_TYPE_STATIC ->
      waiting_value st = true /\ parsing_array st = false /\ parsing_command st = true /\
      command_type st = CLI_TYPE_STATIC)).

(** [keys_ok st]: the value maps are keyed by NULL or by the command name. *)
Definition keys_ok (st : parse_state) : Prop :=
  dom (strings (ps_args st)) ∪ dom (integers (ps_args st)) ∪ dom (floats (ps_args st))
    ⊆ {[ None; command_name st ]}.

(** * Properties *)

Ltac unfold_step :=
  unfold step, flag_step, value_step, command_step, fail_ret, argv_t_process_array,
    push_array, insert_statics, insert_strings, insert_integers, insert_floats,
    remove_required in *.

Ltac step_cases :=
  unfold_step; repeat (case_match; simplify_eq/=); simplify_eq/=.

(** Flag tokens: [tok] is [--k] or [-k] and no value is awaited. *)
Ltac flag_token_tac Hk Hw :=
  let c := fresh "c" in let after := fresh "after" in
  let Ec := fresh "Ec" in let c2 := fresh "c2" in let Ec2 := fresh "Ec2" in
  match goal with tok : string |- _ =>
    destruct tok as [|c after]; simpl in Hk; [discriminate|];
    destruct (Ascii.eqb c "-"%char) eqn:Ec; [|discriminate];
    destruct after as [|c2 ?]; [discriminate|];
    unfold step, flag_step; rewrite Ec, Hw; simpl;
    destruct (Ascii.eqb c2 "-"%char) eqn:Ec2; simplify_eq; simpl
  end.

Section Loop.

Variable atoi_convert : string -> Z.
Variable atof : string -> float.
Variable malloc_cell : parse_state -> string -> cli_i_value_t.

Abbreviation step := (step atoi_convert atof malloc_cell).
Abbreviation run_loop := (run_loop atoi_convert atof malloc_cell).
Abbreviation parse_argv := (parse_argv atoi_convert atof malloc_cell).

Lemma step_stop_fail st a r :
  step st a = Stop r -> success (fst r) = false.
Proof. intros H. step_cases; reflexivity. Qed.

Lemma step_next_app st a st' :
  step st a = Next st' ->
  ps_app st' = set_required (ps_app st) (delete_opt (flag_token_name a) (required_flags (ps_app st))).
Proof.
  destruct st as [[fl co rq] ? ? ? ? ? ? ? ? ?]; intros H.
  unfold flag_token_name; step_cases; reflexivity.
Qed.

Lemma step_next_success st a st' :
  step st a = Next st' -> success (ps_args st') = success (ps_args st).
Proof. intros H. step_cases; reflexivity. Qed.

Lemma step_next_statics st a st' k :
  step st a = Next st' ->
  statics (ps_args st) !! k = Some sentinel_true ->
  statics (ps_args st') !! k = Some sentinel_true.
Proof.
  intros H Hk. step_cases; try assumption;
    match goal with |- <[?x := _]> _ !! _ = _ => destruct (decide (x = k)) end;
    simplify_map_eq; done.
Qed.

Lemma step_stop_statics st a r :
  step st a = Stop r -> statics (fst r) = statics (ps_args st).
Proof. intros H. step_cases; reflexivity. Qed.

Lemma set_required_twice (app : cli_app_t) m m' :
  set_required (set_required app m) m' = set_required app m'.
Proof. reflexivity. Qed.

Lemma set_required_self (app : cli_app_t) :
  set_required app (required_flags app) = app.
Proof. destruct app; reflexivity. Qed.

Lemma run_loop_next_app st args st' :
  run_loop st args = Next st' ->
  ps_app st' = set_required (ps_app st) (remove_all (required_flags (ps_app st)) args).
Proof.
  revert st. induction args as [|a rest IH]; intros st H; simpl in H.
  - simplify_eq. by rewrite set_required_self.
  - destruct (step st a) as [st1|r] eqn:E; [|discriminate].
    rewrite (IH _ H), (step_next_app _ _ _ E). reflexivity.
Qed.

Lemma run_loop_next_success st args st' :
  run_loop st args = Next st' -> success (ps_args st') = success (ps_args st).
Proof.
  revert st. induction args as [|a rest IH]; intros st H; simpl in H.
  - by simplify_eq.
  - destruct (step st a) as [st1|r] eqn:E; [|discriminate].
    rewrite (IH _ H). exact (step_next_success _ _ _ E).
Qed.

Lemma run_loop_stop_fail st args r :
  run_loop st args = Stop r -> success (fst r) = false.
Proof.
  revert st. induction args as [|a rest IH]; intros st H; simpl in H; [discriminate|].
  destruct (step st a) as [st1|r'] eqn:E.
  - exact (IH _ H).
  - simplify_eq. exact (step_stop_fail _ _ _ E).
Qed.

Lemma run_loop_statics st args k :
  statics (ps_args st) !! k = Some sentinel_true ->
  match run_loop st args with
  | Next st' => statics (ps_args st') !! k = Some sentinel_true
  | Stop r => statics (fst r) !! k = Some sentinel_true
  end.
Proof.
  revert st. induction args as [|a rest IH]; intros st Hk; simpl; [assumption|].
  destruct (step st a) as [st1|r] eqn:E.
  - apply IH. exact (step_next_statics _ _ _ _ E Hk).
  - by rewrite (step_stop_statics _ _ _ E).
Qed.

Lemma run_loop_cons st a rest :
  run_loop st (a :: rest) =
  match step st a with Next st' => run_loop st' rest | Stop r => Stop r end.
Proof. reflexivity. Qed.

Lemma run_loop_split st pre rest :
  run_loop st (pre ++ rest) =
  match run_loop st pre with Next st' => run_loop st' rest | Stop r => Stop r end.
Proof.
  revert st. induction pre as [|a pre IH]; intros st; simpl; [reflexivity|].
  destruct (step st a); [apply IH|reflexivity].
Qed.

Lemma remove_all_keep m args n :
  Forall (fun t => flag_token_name t <> Some n) args ->
  remove_all m args !! n = m !! n.
Proof.
  revert m. induction args as [|a rest IH]; intros m Hf; simpl; [reflexivity|].
  inversion Hf as [|? ? Ha Hrest]; subst.
  rewrite (IH _ Hrest). unfold delete_opt.
  destruct (flag_token_name a) as [k|]; [|reflexivity].
  assert (k <> n) by congruence. by rewrite lookup_delete_ne.
Qed.

Lemma remove_all_none m args n :
  m !! n = None -> remove_all m args !! n = None.
Proof.
  revert m. induction args as [|a rest IH]; intros m Hm; simpl; [assumption|].
  apply IH. unfold delete_opt. destruct (flag_token_name a) as [k|]; [|assumption].
  destruct (decide (k = n)); subst; [by rewrite lookup_delete_eq|by rewrite lookup_delete_ne].
Qed.

Lemma remove_all_del m args t n :
  In t args -> flag_token_name t = Some n -> remove_all m args !! n = None.
Proof.
  revert m. induction args as [|a rest IH]; intros m Hin Ht; simpl in *; [contradiction|].
  destruct Hin as [<-|Hin].
  - apply remove_all_none. rewrite Ht. simpl. by rewrite lookup_delete_eq.
  - exact (IH _ Hin Ht).
Qed.

Lemma step_flag_static st tok k e :
  waiting_value st = false -> flag_token_name tok = Some k ->
  flags (ps_app st) !! k = Some e -> type e = CLI_TYPE_STATIC ->
  exists st', step st tok = Next st' /\ statics (ps_args st') !! Some k = Some sentinel_true /\
              waiting_value st' = true.
Proof.
  intros Hw Hk He Ht. flag_token_tac Hk Hw; rewrite ?He, ?Ht; simpl;
    eexists; (split; [reflexivity|]); simpl; by simplify_map_eq.
Qed.

Lemma step_flag_array st tok k e :
  waiting_value st = false -> flag_token_name tok = Some k ->
  flags (ps_app st) !! k = Some e -> type e = CLI_TYPE_ARRAY ->
  exists st', step st tok = Next st' /\ array_values st' = Some [] /\
              waiting_value st' = true /\ parsing_array st' = true /\
              command_name st' = command_name st.
Proof.
  intros Hw Hk He Ht. flag_token_tac Hk Hw; rewrite ?He, ?Ht; simpl;
    eexists; (split; [reflexivity|]); simpl; auto.
Qed.

Lemma step_flag_unknown st tok k :
  waiting_value st = false -> flag_token_name tok = Some k ->
  flags (ps_app st) !! k = None ->
  exists r, step st tok = Stop r /\ success (fst r) = false /\
            snd r = set_required (ps_app st) (delete k (required_flags (ps_app st))).
Proof.
  intros Hw Hk He. flag_token_tac Hk Hw; rewrite ?He; simpl;
    eexists; (split; [reflexivity|]); simpl; auto.
Qed.

Lemma step_flag_waiting st tok :
  waiting_value st = true -> is_flag_token tok = true ->
  exists r, step st tok = Stop r /\ success (fst r) = false /\ snd r = ps_app st.
Proof.
  intros Hw Hf. destruct tok as [|c after]; simpl in Hf; [discriminate|].
  unfold step, flag_step. rewrite Hf, Hw. simpl.
  destruct (parsing_array st); simpl; eexists; split; try reflexivity; auto.
Qed.

(** Array mode: a token that is not a flag is appended to the vector. *)
Lemma step_array_value st t :
  waiting_value st = true -> parsing_array st = true -> is_flag_token t = false ->
  step st t = Next (push_array st t).
Proof.
  intros Hw Hp Hf. unfold step.
  destruct t as [|c after]; simpl in Hf.
  - rewrite Hw. unfold value_step. by rewrite Hp.
  - rewrite Hf, Hw. unfold value_step. by rewrite Hp.
Qed.

Lemma run_loop_array st ts l :
  waiting_value st = true -> parsing_array st = true -> array_values st = Some l ->
  Forall (fun t => is_flag_token t = false) ts ->
  exists st', run_loop st ts = Next st' /\ array_values st' = Some (l ++ ts)%list /\
              waiting_value st' = true /\ parsing_array st' = true /\
              command_name st' = command_name st /\ ps_app st' = ps_app st.
Proof.
  revert st l. induction ts as [|t ts IH]; intros st l Hw Hp Ha Hf; simpl.
  - exists st. rewrite app_nil_r. repeat split; auto.
  - inversion Hf as [|? ? Ht Hts]; subst.
    rewrite (step_array_value _ _ Hw Hp Ht).
    destruct (IH (push_array st t) (l ++ [t])%list Hw Hp) as (st' & E & ? & ? & ? & ? & ?);
      [by unfold push_array; simpl; rewrite Ha|assumption|].
    exists st'. rewrite <- app_assoc in *. simpl in *. repeat split; auto.
Qed.

End Loop.

Lemma remove_all_app m l1 l2 :
  remove_all m (l1 ++ l2) = remove_all (remove_all m l1) l2.
Proof. revert m. induction l1 as [|a l1 IH]; intros m; simpl; [reflexivity|apply IH]. Qed.

Lemma flag_token_name_is_flag tok k :
  flag_token_name tok = Some k -> is_flag_token tok = true.
Proof.
  destruct tok as [|c after]; simpl; [discriminate|].
  destruct (Ascii.eqb c "-"%char); [reflexivity|discriminate].
Qed.

Lemma step_stop_required atoi_convert atof malloc_cell st a r :
  step atoi_convert atof malloc_cell st a = Stop r -> required_flags (snd r) ⊆ required_flags (ps_app st).
Proof. intros H. step_cases; try reflexivity; apply delete_subseteq. Qed.

Lemma run_loop_stop_required atoi_convert atof malloc_cell st args r :
  run_loop atoi_convert atof malloc_cell st args = Stop r ->
  required_flags (snd r) ⊆ required_flags (ps_app st).
Proof.
  revert st. induction args as [|a rest IH]; intros st H; simpl in H; [discriminate|].
  destruct (step _ _ _ st a) as [st1|r'] eqn:E.
  - etrans; [exact (IH _ H)|]. rewrite (step_next_app _ _ _ _ _ _ E). simpl.
    destruct (flag_token_name a); simpl; [apply delete_subseteq|reflexivity].
  - simplify_eq. exact (step_stop_required _ _ _ _ _ _ E).
Qed.

Lemma remove_all_subseteq m args : remove_all m args ⊆ m.
Proof.
  revert m. induction args as [|a rest IH]; intros m; simpl; [reflexivity|].
  etrans; [apply IH|]. destruct (flag_token_name a); simpl; [apply delete_subseteq|reflexivity].
Qed.

Lemma cli_insert_command_required app n v :
  required_flags (snd (cli_insert_command app n v)) = required_flags app.
Proof. unfold cli_insert_command. repeat case_match; reflexivity. Qed.

Lemma final_check_app st : snd (final_check st) = ps_app st.
Proof. unfold final_check. case_match; reflexivity. Qed.

Section Claims.

Variable atoi_convert : string -> Z.
Variable atof : string -> float.
Variable malloc_cell : parse_state -> string -> cli_i_value_t.

Abbreviation step := (step atoi_convert atof malloc_cell).
Abbreviation run_loop := (run_loop atoi_convert atof malloc_cell).
Abbreviation parse_argv := (parse_argv atoi_convert atof malloc_cell).

Lemma parse_argv_unfold argv app :
  parse_argv argv app =
  match run_loop (ps_init app) (tail argv) with Stop r => r | Next st => final_check st end.
Proof. reflexivity. Qed.

(** The loop, once past [pre], has the schema's flags and commands. *)
Lemma run_loop_flags app pre st :
  run_loop (ps_init app) pre = Next st -> flags (ps_app st) = flags app.
Proof. intros H. rewrite (run_loop_next_app _ _ _ _ _ _ H). reflexivity. Qed.

Lemma parse_argv_split p pre tok rest app :
  parse_argv (p :: pre ++ tok :: rest) app =
  match run_loop (ps_init app) pre with
  | Next st =>
      match step st tok with
      | Next st1 =>
          match run_loop st1 rest with Stop r => r | Next st2 => final_check st2 end
      | Stop r => r
      end
  | Stop r => r
  end.
Proof.
  rewrite parse_argv_unfold. simpl tail. rewrite run_loop_split.
  destruct (run_loop (ps_init app) pre); [simpl|reflexivity].
  destruct (step st tok); reflexivity.
Qed.

(** C1: for the schema [--verbose]/[-v] (static) and the command [build]
    (string), parsing [prog -v build main.c] does not succeed: after the
    static flag [-v] the loop still waits for a value, so [build] is taken
    as that value and [main.c] as the command name, which is unknown. *)
Theorem C1_verbose_build_fails :
  let r := fst (parse_argv ["prog"; "-v"; "build"; "main.c"] app_verbose_build) in
  success r = false /\ statics r !! Some "v" = Some sentinel_true /\
  statics r !! None = Some sentinel_true /\
  command r = Some empty_i_value.
Proof. vm_compute. repeat split. Qed.

(** C2 (amended): parsing a STATIC flag token, reached while no value is
    awaited, records presence in the statics mapping under the name as it
    is written in the token ([--x] gives [x], [-a] gives [a]), and the
    entry is still there in the returned result. *)
Theorem C2_static_key_as_written app pre st tok k e rest p :
  run_loop (ps_init app) pre = Next st -> waiting_value st = false ->
  flags app !! k = Some e -> type e = CLI_TYPE_STATIC -> flag_token_name tok = Some k ->
  statics (fst (parse_argv (p :: pre ++ tok :: rest) app)) !! Some k = Some sentinel_true.
Proof.
  intros Hpre Hw He Ht Hk.
  rewrite <- (run_loop_flags _ _ _ Hpre) in He.
  destruct (step_flag_static atoi_convert atof malloc_cell _ _ _ _ Hw Hk He Ht) as (st1 & E & Hs & _).
  rewrite parse_argv_split, Hpre, E.
  pose proof (run_loop_statics atoi_convert atof malloc_cell st1 rest _ Hs) as Hr.
  destruct (run_loop st1 rest); [|assumption].
  unfold final_check. case_match; exact Hr.
Qed.

(** C3 (amended): if the required-flags set holds [n] when the parse
    starts and no token names [n] as a flag ([--n] or [-n]; a token naming
    the alias names the alias), the parse fails; a token naming [n] removes
    it, so when the loop completes [n] is no longer pending. *)
Theorem C3_required_canonical_name app argv n e st tok :
  (required_flags app !! n = Some e ->
   Forall (fun t => flag_token_name t <> Some n) (tail argv) ->
   success (fst (parse_argv argv app)) = false) /\
  (run_loop (ps_init app) (tail argv) = Next st ->
   In tok (tail argv) -> flag_token_name tok = Some n ->
   required_flags (snd (parse_argv argv app)) !! n = None).
Proof.
  split.
  - intros He Hf. rewrite parse_argv_unfold.
    destruct (run_loop (ps_init app) (tail argv)) as [st'|r] eqn:E.
    + pose proof (run_loop_next_app _ _ _ _ _ _ E) as Ha.
      assert (Hn : required_flags (ps_app st') !! n = Some e)
        by (rewrite Ha; simpl; rewrite remove_all_keep; assumption).
      unfold final_check.
      rewrite (bool_decide_eq_false_2 (required_flags (ps_app st') = ∅));
        [by rewrite !orb_true_r|].
      intros Hemp. rewrite Hemp in Hn. by rewrite lookup_empty in Hn.
    + exact (run_loop_stop_fail _ _ _ _ _ _ E).
  - intros Hl Hin Ht. rewrite parse_argv_unfold. rewrite Hl, final_check_app.
    rewrite (run_loop_next_app _ _ _ _ _ _ Hl). simpl.
    exact (remove_all_del _ _ _ _ Hin Ht).
Qed.

(** C4 (amended): after an ARRAY flag token, reached while no value is
    awaited, every following token that does not start with ['-'] is
    appended, in input order, to the vector being collected; ending the
    input in that mode leaves only the command and required-flags checks;
    a flag token arriving while the vector is collected fails the parse. *)
Theorem C4_array_collects app pre st tok k e ts p :
  run_loop (ps_init app) pre = Next st -> waiting_value st = false ->
  flags app !! k = Some e -> type e = CLI_TYPE_ARRAY -> flag_token_name tok = Some k ->
  Forall (fun t => is_flag_token t = false) ts ->
  (exists st', run_loop (ps_init app) (pre ++ tok :: ts) = Next st' /\
               array_values st' = Some ts /\ waiting_value st' = true /\ parsing_array st' = true) /\
  (success (fst (parse_argv (p :: pre ++ tok :: ts) app)) = true <->
   command_name st <> None /\ delete k (required_flags (ps_app st)) = ∅) /\
  (forall after rest,
     success (fst (parse_argv (p :: pre ++ tok :: ts ++ String "-"%char after :: rest) app)) = false).
Proof.
  intros Hpre Hw He Ht Hk Hts.
  pose proof (run_loop_flags _ _ _ Hpre) as Hfl. rewrite <- Hfl in He.
  destruct (step_flag_array atoi_convert atof malloc_cell _ _ _ _ Hw Hk He Ht)
    as (st1 & E1 & Ha1 & Hw1 & Hp1 & Hc1).
  pose proof (step_next_app _ _ _ _ _ _ E1) as Happ1. rewrite Hk in Happ1.
  destruct (run_loop_array atoi_convert atof malloc_cell st1 ts [] Hw1 Hp1 Ha1 Hts)
    as (st2 & E2 & Ha2 & Hw2 & Hp2 & Hc2 & Happ2).
  assert (Hrun : run_loop (ps_init app) (pre ++ tok :: ts) = Next st2)
    by (rewrite run_loop_split, Hpre; simpl; rewrite E1; exact E2).
  split; [|split].
  - exists st2. auto.
  - rewrite parse_argv_unfold. simpl tail. rewrite Hrun.
    pose proof (run_loop_next_success _ _ _ _ _ _ Hrun) as Hs.
    unfold final_check. rewrite Hw2, Hp2. simpl.
    rewrite Hc2, Hc1, Happ2, Happ1. simpl.
    destruct (command_name st) as [c|]; simpl.
    + destruct (bool_decide_reflect (delete k (required_flags (ps_app st)) = ∅)) as [Hd|Hd];
        simpl; rewrite ?Hs; simpl; intuition congruence.
    + split; [discriminate|]. intros [? _]; contradiction.
  - intros after rest.
    rewrite parse_argv_unfold. simpl tail.
    rewrite app_comm_cons, app_assoc, run_loop_split, Hrun, run_loop_cons.
    destruct (step_flag_waiting atoi_convert atof malloc_cell st2 (String "-"%char after) Hw2 eq_refl)
      as (r & Er & Hr & _).
    rewrite Er. exact Hr.
Qed.

(** C7: when the loop of [parse_argv] runs through every token, the result
    fails exactly when a scalar value is still awaited outside array mode,
    no command was recorded, or the required-flags set is not empty. *)
Theorem C7_final_check argv app st :
  run_loop (ps_init app) (tail argv) = Next st ->
  (success (fst (parse_argv argv app)) = false <->
   (waiting_value st = true /\ parsing_array st = false) \/
   command_name st = None \/ required_flags (ps_app st) <> ∅).
Proof.
  intros H. rewrite parse_argv_unfold. rewrite H.
  pose proof (run_loop_next_success _ _ _ _ _ _ H) as Hs. simpl in Hs.
  unfold final_check.
  destruct (waiting_value st), (parsing_array st), (command_name st) as [c|];
    simpl; rewrite ?Hs;
    destruct (bool_decide_reflect (required_flags (ps_app st) = ∅)) as [Hd|Hd]; simpl;
    unfold argv_set_command, argv_set_success; simpl; rewrite ?Hs;
    intuition congruence.
Qed.

(** C10 (amended): the parse mutates the schema's required-flags set even
    when it then fails. A flag token reached while no value is awaited has
    its stripped name removed before it is resolved, so an unknown flag
    fails with the set reduced by every flag token up to and including it;
    a flag token reached while a value is awaited fails before any removal. *)
Theorem C10_required_mutated_on_failure app pre st tok k rest p :
  run_loop (ps_init app) pre = Next st -> flag_token_name tok = Some k ->
  (waiting_value st = false -> flags app !! k = None ->
   success (fst (parse_argv (p :: pre ++ tok :: rest) app)) = false /\
   required_flags (snd (parse_argv (p :: pre ++ tok :: rest) app)) =
     remove_all (required_flags app) (pre ++ [tok])) /\
  (waiting_value st = true ->
   success (fst (parse_argv (p :: pre ++ tok :: rest) app)) = false /\
   required_flags (snd (parse_argv (p :: pre ++ tok :: rest) app)) =
     remove_all (required_flags app) pre).
Proof.
  intros Hpre Hk.
  pose proof (run_loop_next_app _ _ _ _ _ _ Hpre) as Happ. simpl in Happ.
  rewrite parse_argv_split, Hpre.
  split.
  - intros Hw He. rewrite <- (run_loop_flags _ _ _ Hpre) in He.
    destruct (step_flag_unknown atoi_convert atof malloc_cell _ _ _ Hw Hk He) as (r & Er & Hr & Har).
    rewrite Er, Har, Happ, remove_all_app. simpl. rewrite Hk. auto.
  - intros Hw.
    destruct (step_flag_waiting atoi_convert atof malloc_cell _ _ Hw (flag_token_name_is_flag _ _ Hk))
      as (r & Er & Hr & Har).
    rewrite Er, Har, Happ. auto.
Qed.

(** C5 (code bug): the value of a scalar flag goes into the mapping of its
    kind, but keyed by [command_name] instead of the flag name: for a
    schema with the INTEGER flag [n] and the STRING command [build],
    [prog build x --n 5] succeeds with a cell holding the integer stored
    under ["build"] and nothing under ["n"]. *)
Theorem C5_integer_keyed_by_command_name :
  let r := fst (parse_argv ["prog"; "build"; "x"; "--n"; "5"] app_n_build) in
  success r = true /\ integers r !! Some "n" = None /\
  (exists v, integers r !! Some "build" = Some (cell v) /\ num_val v = atoi_convert "5") /\
  statics r = ∅ /\ strings r = ∅ /\ floats r = ∅ /\ arrays r = ∅.
Proof.
  cbv zeta. refine (conj _ (conj _ (conj _ _))); [vm_compute; reflexivity.. | |].
  - destruct (integers (fst (parse_argv ["prog"; "build"; "x"; "--n"; "5"] app_n_build))
                !! Some "build") as [c|] eqn:E; vm_compute in E; [|discriminate].
    injection E as <-. eexists. split; reflexivity.
  - vm_compute. repeat split.
Qed.

(** C9: registering commands never touches the required-flags set, and a
    parse only ever removes names from it. *)
Theorem C9_commands_keep_required app (regs : list (string * cli_value_t)) argv :
  required_flags (fold_left (fun a nv => snd (cli_insert_command a nv.1 nv.2)) regs app) =
    required_flags app /\
  required_flags (snd (parse_argv argv app)) ⊆ required_flags app.
Proof.
  split.
  - revert app. induction regs as [|[n v] regs IH]; intros app; simpl; [reflexivity|].
    rewrite IH. apply cli_insert_command_required.
  - rewrite parse_argv_unfold.
    destruct (run_loop (ps_init app) (tail argv)) as [st|r] eqn:E.
    + rewrite final_check_app, (run_loop_next_app _ _ _ _ _ _ E). apply remove_all_subseteq.
    + exact (run_loop_stop_required _ _ _ _ _ _ E).
Qed.

End Claims.

(** C6 (code bug): a registration whose name is new but whose alias is
    taken returns false after the name has already been inserted. *)
Theorem C6_alias_clash_mutates :
  cli_insert_flag app_a "b" b_entry =
    (false, set_flags app_a (<[ "b" := b_entry ]> (flags app_a))) /\
  flags (snd (cli_insert_flag app_a "b" b_entry)) !! "b" = Some b_entry /\
  size (flags (snd (cli_insert_flag app_a "b" b_entry))) = S (size (flags app_a)) /\
  cli_insert_command app_a "d" d_entry =
    (false, set_commands app_a (<[ "d" := d_entry ]> (commands app_a))) /\
  size (commands (snd (cli_insert_command app_a "d" d_entry))) = S (size (commands app_a)).
Proof. vm_compute. repeat split. Qed.

(** C8: the help generator only reads the schema, and returns NULL when
    the schema, the name or the description is NULL. *)
Theorem C8_help_frame (str_pad : nat -> string -> string) app name desc padding_size :
  snd (cli_generate_help str_pad app name desc padding_size) = app /\
  fst (cli_generate_help str_pad None name desc padding_size) = None /\
  fst (cli_generate_help str_pad app None desc padding_size) = None /\
  fst (cli_generate_help str_pad app name None padding_size) = None.
Proof.
  destruct app as [a|], name as [n|], desc as [d|]; repeat split; simpl; try reflexivity.
  unfold help_body, write_app_values in *. unfold help_bind, help_get, help_ret in *.
  repeat case_match; simplify_eq/=; reflexivity.
Qed.

(** * Concrete runs *)

(** C2: [-v] records the alias [v], not the canonical [verbose]. *)
Lemma C2_counterexample :
  statics (fst (parse ["prog"; "-v"; "build"; "main.c"] app_verbose_build)) !! Some "verbose" = None /\
  statics (fst (parse ["prog"; "-v"; "build"; "main.c"] app_verbose_build)) !! Some "v" = Some sentinel_true /\
  statics (fst (parse ["prog"; "--verbose"; "build"; "main.c"] app_verbose_build)) !! Some "verbose"
    = Some sentinel_true.
Proof. vm_compute. repeat split. Qed.

Lemma C2_witness :
  statics (fst (parse ("prog" :: [] ++ "-v" :: ["build"; "main.c"]) app_verbose_build)) !! Some "v"
    = Some sentinel_true.
Proof.
  apply (C2_static_key_as_written atoi_decimal atof_int malloc_junk app_verbose_build []
           (ps_init app_verbose_build) "-v" "v" verbose_entry ["build"; "main.c"] "prog");
    vm_compute; reflexivity.
Defined.

(** C3: the required flag [out] supplied by its alias [-o] is still
    pending at the end; supplied as [--out] it is cleared. *)
Lemma C3_counterexample :
  success (fst (parse ["prog"; "-o"; "file"; "build"; "x"] app_out_build)) = false /\
  required_flags (snd (parse ["prog"; "-o"; "file"; "build"; "x"] app_out_build)) !! "out"
    = Some out_entry /\
  success (fst (parse ["prog"; "--out"; "file"; "build"; "x"] app_out_build)) = true.
Proof. vm_compute. repeat split. Qed.

Lemma C3_witness :
  success (fst (parse ["prog"; "-o"; "file"; "build"; "x"] app_out_build)) = false /\
  required_flags (snd (parse ["prog"; "--out"; "file"; "build"; "x"] app_out_build)) !! "out" = None.
Proof.
  split.
  - apply (proj1 (C3_required_canonical_name atoi_decimal atof_int malloc_junk app_out_build
                    ["prog"; "-o"; "file"; "build"; "x"] "out" out_entry
                    (ps_init app_out_build) "-o")).
    + vm_compute; reflexivity.
    + repeat constructor; vm_compute; congruence.
  - apply (proj2 (C3_required_canonical_name atoi_decimal atof_int malloc_junk app_out_build
                    ["prog"; "--out"; "file"; "build"; "x"] "out" out_entry
                    (loop_state app_out_build ["--out"; "file"; "build"; "x"]) "--out")).
    + vm_compute; reflexivity.
    + simpl; auto.
    + vm_compute; reflexivity.
Defined.

(** C4: [--opt v] after the command succeeds, but an array flag right
    before it makes the parse fail. *)
Lemma C4_counterexample :
  success (fst (parse ["prog"; "run"; "target"; "--opt"; "v"] app_tags_run)) = true /\
  success (fst (parse ["prog"; "run"; "target"; "--tags"; "--opt"; "v"] app_tags_run)) = false.
Proof. vm_compute. split; reflexivity. Qed.

Lemma C4_witness :
  success (fst (parse ("prog" :: ["run"; "target"] ++ "--tags" :: ["a"; "b"]) app_tags_run)) = true.
Proof.
  refine (proj2 (proj1 (proj2 (C4_array_collects atoi_decimal atof_int malloc_junk app_tags_run ["run"; "target"]
           (loop_state app_tags_run ["run"; "target"]) "--tags" "tags" tags_entry ["a"; "b"] "prog"
           _ _ _ _ _ _))) _);
    try (vm_compute; reflexivity).
  - repeat constructor.
  - split; vm_compute; [discriminate|reflexivity].
Defined.

Lemma C7_witness :
  success (fst (parse ["prog"; "build"; "x"] app_verbose_build)) = false <->
  (waiting_value (loop_state app_verbose_build ["build"; "x"]) = true /\
   parsing_array (loop_state app_verbose_build ["build"; "x"]) = false) \/
  command_name (loop_state app_verbose_build ["build"; "x"]) = None \/
  required_flags (ps_app (loop_state app_verbose_build ["build"; "x"])) <> ∅.
Proof.
  apply (C7_final_check atoi_decimal atof_int malloc_junk ["prog"; "build"; "x"] app_verbose_build
           (loop_state app_verbose_build ["build"; "x"])).
  vm_compute; reflexivity.
Defined.

(** C10: [-x] arriving while [--opt] waits for its value fails the parse
    before [x] is removed from the required-flags set. *)
Lemma C10_counterexample :
  success (fst (parse ["prog"; "--opt"; "-x"] app_opt_x_build)) = false /\
  required_flags (snd (parse ["prog"; "--opt"; "-x"] app_opt_x_build)) !! "x" = Some x_entry.
Proof. vm_compute. split; reflexivity. Qed.

Lemma C10_witness :
  success (fst (parse ("prog" :: ["--out"; "f"] ++ "--zzz" :: []) app_out_build)) = false /\
  required_flags (snd (parse ("prog" :: ["--out"; "f"] ++ "--zzz" :: []) app_out_build)) =
    remove_all (required_flags app_out_build) (["--out"; "f"] ++ ["--zzz"]).
Proof.
  refine (proj1 (C10_required_mutated_on_failure atoi_decimal atof_int malloc_junk app_out_build ["--out"; "f"]
           (loop_state app_out_build ["--out"; "f"]) "--zzz" "zzz" [] "prog" _ _) _ _);
    vm_compute; reflexivity.
Defined.

(** * Further properties of the parser, the registration calls and the
      help generator *)

Section Extra.

Variable atoi_convert : string -> Z.
Variable atof : string -> float.
Variable malloc_cell : parse_state -> string -> cli_i_value_t.

Abbreviation step := (step atoi_convert atof malloc_cell).
Abbreviation run_loop := (run_loop atoi_convert atof malloc_cell).
Abbreviation parse_argv := (parse_argv atoi_convert atof malloc_cell).

Lemma step_next_cmd st a st' :
  step st a = Next st' ->
  (command_name st' = command_name st /\ cmd_ptr (ps_args st') = cmd_ptr (ps_args st) /\
   command_type st' = command_type st) \/
  (command_name st = None /\ command_name st' = Some a /\
   commands (ps_app st) !! a = cmd_ptr (ps_args st') /\
   exists e, cmd_ptr (ps_args st') = Some e /\ command_type st' = type e /\
             waiting_value st' = true /\ parsing_command st' = true /\
             parsing_array st' = is_array_type (type e)).
Proof.
  intros H. step_cases;
    first [left; refine (conj eq_refl (conj eq_refl eq_refl))
          | right; refine (conj _ (conj eq_refl (conj _ _))); try first [reflexivity|assumption];
            eexists; refine (conj eq_refl _); refine (conj eq_refl (conj eq_refl (conj eq_refl _)));
            first [reflexivity|congruence]].
Qed.

Lemma step_stop_schema st a r :
  step st a = Stop r ->
  flags (snd r) = flags (ps_app st) /\ commands (snd r) = commands (ps_app st).
Proof. intros H. step_cases; split; reflexivity. Qed.

(** A STATIC command leaves the loop waiting for a value it can never take. *)
Lemma step_static_command_stuck st a :
  command_type st = CLI_TYPE_STATIC -> waiting_value st = true ->
  parsing_array st = false -> parsing_command st = true ->
  exists r, step st a = Stop r.
Proof.
  intros Ht Hw Hp Hc. unfold step.
  destruct a as [|ch after].
  - rewrite Hw. unfold value_step. rewrite Hp, Hc, Ht. simpl. unfold fail_ret. eauto.
  - destruct (Ascii.eqb ch "-"%char).
    + unfold flag_step. rewrite Hw, Hp. simpl. unfold fail_ret. eauto.
    + rewrite Hw. unfold value_step. rewrite Hp, Hc, Ht. simpl. unfold fail_ret. eauto.
Qed.

(** Once the command's value is taken, the local [command] is not touched
    again by a step that continues. *)
Lemma step_keep_command st a st' c :
  command_name st = Some c -> parsing_command st = false ->
  step st a = Next st' ->
  command_name st' = Some c /\ parsing_command st' = false /\ ps_command st' = ps_command st.
Proof.
  intros Hn Hc H. step_cases; repeat split; congruence.
Qed.

Lemma step_commands st a st' :
  step st a = Next st' ->
  commands (ps_app st') = commands (ps_app st) /\ flags (ps_app st') = flags (ps_app st).
Proof. intros H. rewrite (step_next_app _ _ _ _ _ _ H). split; reflexivity. Qed.

Lemma step_command_none st a st' :
  step st a = Next st' -> command_name st' = None -> parsing_command st = false ->
  ps_command st' = ps_command st /\ parsing_command st' = false.
Proof. intros H Hn Hc. step_cases; first [split; congruence | congruence]. Qed.

Lemma step_cmd_inv seen st a st' :
  step st a = Next st' -> cmd_inv seen st -> cmd_inv (seen ++ [a])%list st'.
Proof.
  intros H Hi. destruct (step_commands _ _ _ H) as [Hc _].
  destruct (step_next_cmd _ _ _ H)
    as [(Hn & Hp & Ht) | (Hn & Hn' & Hl & e & Hp & Ht & Hw & Hpc & Hpa)].
  - destruct Hi as [(Hn0 & Hc0 & Hpc0) | (c & e & Hn0 & Hin & Hl & Hp0 & Hs)].
    + left. rewrite Hn. destruct (step_command_none _ _ _ H) as [Hc1 Hpc1];
        [congruence|assumption|]. rewrite Hc1. auto.
    + right. exists c, e. rewrite Hn, Hc, Hp.
      refine (conj Hn0 (conj _ (conj Hl (conj Hp0 _)))).
      * apply in_or_app. left. exact Hin.
      * intros Hst. destruct (Hs Hst) as (Hw & Hpa & Hpc & Hct).
        destruct (step_static_command_stuck st a Hct Hw Hpa Hpc) as [r Hr]. congruence.
  - right. exists a, e. rewrite Hc.
    refine (conj Hn' (conj _ (conj _ (conj Hp _)))).
    + apply in_or_app. right. left. reflexivity.
    + rewrite Hl. exact Hp.
    + intros Hst. rewrite Hpa, Ht, Hst. auto.
Qed.

Lemma run_loop_cmd_inv rest seen st st' :
  run_loop st rest = Next st' -> cmd_inv seen st -> cmd_inv (seen ++ rest)%list st'.
Proof.
  revert seen st. induction rest as [|a rest IH]; intros seen st H Hi.
  - simpl in H. injection H as <-. rewrite app_nil_r. exact Hi.
  - rewrite run_loop_cons in H. destruct (step st a) as [st1|r] eqn:E; [|discriminate].
    replace (seen ++ a :: rest)%list with ((seen ++ [a]) ++ rest)%list
      by (rewrite <- app_assoc; reflexivity).
    eapply IH; [exact H|]. eapply step_cmd_inv; eassumption.
Qed.

Lemma cmd_inv_init app : cmd_inv [] (ps_init app).
Proof. left. auto. Qed.

Lemma final_check_command st : command (fst (final_check st)) = Some (ps_command st).
Proof. unfold final_check. case_match; reflexivity. Qed.

Lemma run_loop_keep_command rest st st' c :
  command_name st = Some c -> parsing_command st = false -> run_loop st rest = Next st' ->
  ps_command st' = ps_command st /\ command_name st' = Some c.
Proof.
  revert st. induction rest as [|a rest IH]; intros st Hn Hc H.
  - simpl in H. injection H as <-. auto.
  - rewrite run_loop_cons in H. destruct (step st a) as [st1|r] eqn:E; [|discriminate].
    destruct (step_keep_command _ _ _ _ Hn Hc E) as (Hn1 & Hc1 & Hv1).
    destruct (IH st1 Hn1 Hc1 H) as [Hv2 Hn2]. rewrite Hv2, Hv1. auto.
Qed.

Lemma step_nonflag st a :
  is_flag_token a = false ->
  step st a = if waiting_value st then value_step atoi_convert atof malloc_cell st a else command_step st a.
Proof.
  intros Hf. unfold step. destruct a as [|ch after]; [reflexivity|].
  simpl in Hf. rewrite Hf. reflexivity.
Qed.

(** A property of the result follows from an invariant of the loop: one kept
    by the steps that continue, turned into the property by the steps that
    return and by the check after the loop. *)
Lemma parse_argv_ind (P : parse_state -> Prop) (Q : argv_t * cli_app_t -> Prop) argv app :
  P (ps_init app) ->
  (forall st a st', step st a = Next st' -> P st -> P st') ->
  (forall st a r, step st a = Stop r -> P st -> Q r) ->
  (forall st, P st -> Q (final_check st)) ->
  Q (parse_argv argv app).
Proof.
  intros H0 Hn Hs Hf. rewrite parse_argv_unfold.
  generalize (tail argv) as args. intros args. revert H0. generalize (ps_init app) as st.
  induction args as [|a args IH]; intros st H0; simpl.
  - exact (Hf st H0).
  - destruct (step st a) as [st1|r] eqn:E.
    + exact (IH st1 (Hn _ _ _ E H0)).
    + exact (Hs _ _ _ E H0).
Qed.

(** A successful parse selected a command: one of the arguments names a registered command, its entry is the one pointed to by the result, that command is not static, and no required flag is left. *)
Theorem parse_success_command argv app :
  success (fst (parse_argv argv app)) = true ->
  exists c e, In c (tail argv) /\ commands app !! c = Some e /\
    cmd_ptr (fst (parse_argv argv app)) = Some e /\ type e <> CLI_TYPE_STATIC /\
    required_flags (snd (parse_argv argv app)) = ∅.
Proof.
  rewrite parse_argv_unfold.
  destruct (run_loop (ps_init app) (tail argv)) as [st|r] eqn:E.
  2: { intros Hs. rewrite (run_loop_stop_fail _ _ _ _ _ _ E) in Hs. discriminate. }
  pose proof (run_loop_cmd_inv _ _ _ _ E (cmd_inv_init app)) as Hi.
  pose proof (run_loop_next_app _ _ _ _ _ _ E) as Happ. simpl in Happ.
  unfold final_check.
  destruct ((waiting_value st && negb (parsing_array st))
            || bool_decide (command_name st = None)
            || negb (bool_decide (required_flags (ps_app st) = ∅))) eqn:Ec;
    simpl; [discriminate|intros _].
  apply orb_false_iff in Ec as [Ec Er]. apply orb_false_iff in Ec as [Ew En].
  destruct Hi as [(Hn & _) | (c & e & Hn & Hin & Hl & Hp & Hs)].
  - rewrite Hn, bool_decide_eq_true_2 in En by reflexivity. discriminate.
  - exists c, e. rewrite Happ in Hl. simpl in Hl, Hin.
    refine (conj Hin (conj Hl (conj Hp (conj _ _)))).
    + intros Hst. destruct (Hs Hst) as (Hw & Hpa & _). rewrite Hw, Hpa in Ew. discriminate.
    + apply negb_false_iff, bool_decide_eq_true in Er. exact Er.
Qed.

(** For a string, integer or float command followed by a non-flag value, a successful parse stores that value in the command slot: the string as it is, or its integer or float conversion. *)
Theorem parse_command_value app pre st c e v rest p :
  run_loop (ps_init app) pre = Next st -> command_name st = None -> waiting_value st = false ->
  commands app !! c = Some e -> is_flag_token c = false -> is_flag_token v = false ->
  type e <> CLI_TYPE_STATIC -> type e <> CLI_TYPE_ARRAY ->
  success (fst (parse_argv (p :: pre ++ c :: v :: rest) app)) = true ->
  command (fst (parse_argv (p :: pre ++ c :: v :: rest) app)) =
    Some (match type e with
          | CLI_TYPE_STRING => mk_i_value (Some v) None 0 PrimFloat.zero
          | CLI_TYPE_INTEGER => mk_i_value None None (atoi_convert v) PrimFloat.zero
          | CLI_TYPE_FLOAT => mk_i_value None None 0 (atof v)
          | _ => command_init
          end).
Proof.
  intros Hpre Hn Hw Hl Hc Hv Hs Ha.
  destruct (run_loop_cmd_inv _ _ _ _ Hpre (cmd_inv_init app))
    as [(_ & Hcmd & Hpc) | (c' & e' & Hn' & _)]; [|congruence].
  pose proof (run_loop_next_app _ _ _ _ _ _ Hpre) as Happ. simpl in Happ.
  assert (Hl' : commands (ps_app st) !! c = Some e) by (rewrite Happ; exact Hl).
  rewrite parse_argv_split, Hpre, (step_nonflag _ _ Hc), Hw.
  unfold command_step. rewrite Hn, Hw. simpl. rewrite Hl'.
  destruct (type e) eqn:Ht; try congruence; simpl;
    rewrite (step_nonflag _ _ Hv); simpl; unfold value_step; simpl;
    match goal with |- context [run_loop ?s rest] => destruct (run_loop s rest) as [st3|r] eqn:E3 end;
    intros Hsucc;
    first [ rewrite final_check_command;
            pose proof (fun H1 H2 => run_loop_keep_command rest _ _ c H1 H2 E3) as K;
            destruct (K eq_refl eq_refl) as [-> _];
            simpl; rewrite Hcmd; reflexivity
          | rewrite (run_loop_stop_fail _ _ _ _ _ _ E3) in Hsucc; discriminate ].
Qed.

Lemma run_loop_array_cmd st ts :
  waiting_value st = true -> parsing_array st = true ->
  Forall (fun t => is_flag_token t = false) ts ->
  exists st', run_loop st ts = Next st' /\ waiting_value st' = true /\ parsing_array st' = true /\
              command_name st' = command_name st /\ ps_app st' = ps_app st /\
              ps_command st' = ps_command st.
Proof.
  revert st. induction ts as [|t ts IH]; intros st Hw Hp Hf; simpl.
  - exists st. repeat split; assumption.
  - inversion Hf as [|? ? Ht Hts]; subst.
    rewrite (step_array_value _ _ _ _ _ Hw Hp Ht).
    destruct (IH (push_array st t) Hw Hp Hts) as (st' & E & ? & ? & ? & ? & ?).
    exists st'. repeat split; assumption.
Qed.

(** An array command followed by non-flag tokens succeeds exactly when no required flag was left once the command was reached, records an empty command value, and any later dash token makes the parse fail. *)
Theorem parse_array_command app pre st c e ts p :
  run_loop (ps_init app) pre = Next st -> command_name st = None -> waiting_value st = false ->
  commands app !! c = Some e -> type e = CLI_TYPE_ARRAY -> is_flag_token c = false ->
  Forall (fun t => is_flag_token t = false) ts ->
  (success (fst (parse_argv (p :: pre ++ c :: ts) app)) = true <->
   required_flags (ps_app st) = ∅) /\
  command (fst (parse_argv (p :: pre ++ c :: ts) app)) = Some command_init /\
  (forall after rest,
     success (fst (parse_argv (p :: pre ++ c :: ts ++ String "-"%char after :: rest) app)) = false).
Proof.
  intros Hpre Hn Hw Hl Ht Hc Hts.
  destruct (run_loop_cmd_inv _ _ _ _ Hpre (cmd_inv_init app))
    as [(_ & Hcmd & _) | (c' & e' & Hn' & _)]; [|congruence].
  pose proof (run_loop_next_app _ _ _ _ _ _ Hpre) as Happ. simpl in Happ.
  assert (Hl' : commands (ps_app st) !! c = Some e) by (rewrite Happ; exact Hl).
  assert (E1 : exists st1, step st c = Next st1 /\ waiting_value st1 = true /\
                 parsing_array st1 = true /\ command_name st1 = Some c /\
                 ps_app st1 = ps_app st /\ ps_command st1 = ps_command st).
  { rewrite (step_nonflag _ _ Hc), Hw. unfold command_step. rewrite Hn, Hw. simpl.
    rewrite Hl', Ht. simpl. eexists. split; [reflexivity|]. simpl. auto. }
  destruct E1 as (st1 & E1 & Hw1 & Hp1 & Hn1 & Happ1 & Hcmd1).
  destruct (run_loop_array_cmd st1 ts Hw1 Hp1 Hts) as (st2 & E2 & Hw2 & Hp2 & Hn2 & Happ2 & Hcmd2).
  refine (conj _ (conj _ _)).
  - rewrite parse_argv_split, Hpre, E1, E2. unfold final_check.
    rewrite Hw2, Hp2, Hn2, Hn1, Happ2, Happ1. simpl.
    case_bool_decide; simpl;
      rewrite ?(run_loop_next_success _ _ _ _ _ _ E2), ?(step_next_success _ _ _ _ _ _ E1),
        ?(run_loop_next_success _ _ _ _ _ _ Hpre); simpl; split; intros; first [reflexivity | assumption | discriminate | contradiction].
  - rewrite parse_argv_split, Hpre, E1, E2, final_check_command, Hcmd2, Hcmd1, Hcmd.
    reflexivity.
  - intros after rest. rewrite parse_argv_split, Hpre, E1, run_loop_split, E2, run_loop_cons.
    destruct (step_flag_waiting atoi_convert atof malloc_cell st2 (String "-"%char after) Hw2 eq_refl) as (r & Er & Hr & _).
    rewrite Er. exact Hr.
Qed.

Lemma step_flag_value st tok k e st' :
  flag_token_name tok = Some k -> flags (ps_app st) !! k = Some e -> type e <> CLI_TYPE_ARRAY ->
  step st tok = Next st' -> waiting_value st' = true /\ parsing_array st' = false.
Proof.
  intros Hk He Ht H.
  destruct (waiting_value st) eqn:Hw.
  - destruct (step_flag_waiting atoi_convert atof malloc_cell st tok Hw (flag_token_name_is_flag _ _ Hk)) as (r & Er & _).
    congruence.
  - revert H. flag_token_tac Hk Hw; rewrite ?He;
      destruct (type e); try congruence; intros H; simplify_eq/=; auto.
Qed.

(** When a succeeding parse meets a known non-array flag token, that token is followed by a value that is not a flag token. *)
Theorem parse_flag_needs_value app pre tok k e rest p :
  flag_token_name tok = Some k -> flags app !! k = Some e -> type e <> CLI_TYPE_ARRAY ->
  success (fst (parse_argv (p :: pre ++ tok :: rest) app)) = true ->
  exists v rest', rest = v :: rest' /\ is_flag_token v = false.
Proof.
  intros Hk He Ht. rewrite parse_argv_split.
  destruct (run_loop (ps_init app) pre) as [st|r] eqn:Epre;
    [|intros Hs; rewrite (run_loop_stop_fail _ _ _ _ _ _ Epre) in Hs; discriminate].
  rewrite <- (run_loop_flags _ _ _ _ _ _ Epre) in He.
  destruct (step st tok) as [st1|r] eqn:E1;
    [|intros Hs; rewrite (step_stop_fail _ _ _ _ _ _ E1) in Hs; discriminate].
  destruct (step_flag_value _ _ _ _ _ Hk He Ht E1) as [Hw1 Hp1].
  destruct rest as [|v rest'].
  - simpl. unfold final_check. rewrite Hw1, Hp1. simpl. discriminate.
  - destruct (is_flag_token v) eqn:Hv.
    + rewrite run_loop_cons.
      destruct (step_flag_waiting atoi_convert atof malloc_cell st1 v Hw1 Hv) as (r & Er & Hr & _).
      rewrite Er, Hr. discriminate.
    + intros _. eauto.
Qed.

(** A lone [-] token, reached after a prefix that did not stop the loop, makes the parse fail; the required map is then the original one minus the flags named in the prefix. *)
Theorem parse_single_dash app pre st rest p :
  run_loop (ps_init app) pre = Next st ->
  success (fst (parse_argv (p :: pre ++ "-" :: rest) app)) = false /\
  required_flags (snd (parse_argv (p :: pre ++ "-" :: rest) app)) =
    remove_all (required_flags app) pre.
Proof.
  intros Hpre. pose proof (run_loop_next_app _ _ _ _ _ _ Hpre) as Happ. simpl in Happ.
  rewrite parse_argv_split, Hpre. unfold step. simpl. unfold flag_step.
  destruct (waiting_value st), (parsing_array st); simpl; rewrite Happ; split; reflexivity.
Qed.

(** A non-flag word reached when no flag value is expected fails the parse if a command was already chosen or if it names no command; the required map then lost exactly the flags named in the prefix. *)
Theorem parse_unexpected_word app pre st c rest p :
  run_loop (ps_init app) pre = Next st -> waiting_value st = false -> is_flag_token c = false ->
  command_name st <> None \/ commands app !! c = None ->
  success (fst (parse_argv (p :: pre ++ c :: rest) app)) = false /\
  required_flags (snd (parse_argv (p :: pre ++ c :: rest) app)) =
    remove_all (required_flags app) pre.
Proof.
  intros Hpre Hw Hc Hx. pose proof (run_loop_next_app _ _ _ _ _ _ Hpre) as Happ. simpl in Happ.
  rewrite parse_argv_split, Hpre, (step_nonflag _ _ Hc), Hw. unfold command_step.
  destruct (command_name st) as [c0|] eqn:Hn.
  - simpl. rewrite Happ. split; reflexivity.
  - destruct Hx as [Hx|Hx]; [congruence|]. rewrite Hw. simpl. rewrite Happ. simpl.
    rewrite Hx. simpl. rewrite ?Happ. split; reflexivity.
Qed.

(** With no argument after the program name, [parse_argv] fails, returns the schema unchanged, leaves every value map empty and selects no command. *)
Theorem parse_no_arguments argv app :
  length argv <= 1 ->
  success (fst (parse_argv argv app)) = false /\ snd (parse_argv argv app) = app /\
  statics (fst (parse_argv argv app)) = ∅ /\ strings (fst (parse_argv argv app)) = ∅ /\
  integers (fst (parse_argv argv app)) = ∅ /\ floats (fst (parse_argv argv app)) = ∅ /\
  arrays (fst (parse_argv argv app)) = ∅ /\ cmd_ptr (fst (parse_argv argv app)) = None.
Proof.
  intros Hl. assert (Ht : tail argv = []) by (destruct argv as [|? [|? ?]]; simpl in *; auto; lia).
  rewrite parse_argv_unfold, Ht. simpl. unfold final_check. simpl.
  repeat split.
Qed.

Lemma parse_flags_commands argv app :
  flags (snd (parse_argv argv app)) = flags app /\
  commands (snd (parse_argv argv app)) = commands app.
Proof.
  apply (parse_argv_ind
           (fun st => flags (ps_app st) = flags app /\ commands (ps_app st) = commands app)
           (fun r => flags (snd r) = flags app /\ commands (snd r) = commands app)).
  - split; reflexivity.
  - intros st a st' E [H1 H2]. destruct (step_commands _ _ _ E). split; congruence.
  - intros st a r E [H1 H2]. destruct (step_stop_schema _ _ _ E). split; congruence.
  - intros st [H1 H2]. rewrite final_check_app. split; assumption.
Qed.

(** [parse_argv] never changes the flags or the commands of the schema; only the required map is touched. *)
Theorem parse_schema_unchanged argv app :
  flags (snd (parse_argv argv app)) = flags app /\
  commands (snd (parse_argv argv app)) = commands app.
Proof. exact (parse_flags_commands argv app). Qed.

(** [parse_argv] never fills the map of array flags, and the command value it records never carries a vector. *)
Theorem parse_arrays_unused argv app :
  arrays (fst (parse_argv argv app)) = ∅ /\
  forall cv, command (fst (parse_argv argv app)) = Some cv -> vec_value cv = None.
Proof.
  apply (parse_argv_ind
           (fun st => arrays (ps_args st) = ∅ /\ command (ps_args st) = None /\
                      vec_value (ps_command st) = None)
           (fun r => arrays (fst r) = ∅ /\
                     forall cv, command (fst r) = Some cv -> vec_value cv = None)).
  - repeat split.
  - intros st a st' H (Ha & Hc & Hv). step_cases; repeat split; assumption.
  - intros st a r H (Ha & Hc & Hv). step_cases; split; try assumption;
      intros cv Hcv; simplify_eq/=; congruence.
  - intros st (Ha & Hc & Hv). unfold final_check. case_match; simpl; split; try assumption;
      intros cv Hcv; simplify_eq/=; congruence.
Qed.

(** Every static recorded by [parse_argv] is the true sentinel, and every string, integer or float recorded is a stored cell. *)
Theorem parse_value_shapes argv app :
  map_Forall (fun _ p => p = sentinel_true) (statics (fst (parse_argv argv app))) /\
  map_Forall (fun _ p => exists v, p = cell v) (strings (fst (parse_argv argv app))) /\
  map_Forall (fun _ p => exists v, p = cell v) (integers (fst (parse_argv argv app))) /\
  map_Forall (fun _ p => exists v, p = cell v) (floats (fst (parse_argv argv app))).
Proof.
  apply (parse_argv_ind
    (fun st =>
       map_Forall (fun _ p => p = sentinel_true) (statics (ps_args st)) /\
       map_Forall (fun _ p => exists v, p = cell v) (strings (ps_args st)) /\
       map_Forall (fun _ p => exists v, p = cell v) (integers (ps_args st)) /\
       map_Forall (fun _ p => exists v, p = cell v) (floats (ps_args st)))
    (fun r =>
       map_Forall (fun _ p => p = sentinel_true) (statics (fst r)) /\
       map_Forall (fun _ p => exists v, p = cell v) (strings (fst r)) /\
       map_Forall (fun _ p => exists v, p = cell v) (integers (fst r)) /\
       map_Forall (fun _ p => exists v, p = cell v) (floats (fst r)))).
  - repeat split; apply map_Forall_empty.
  - intros st a st' H (H1 & H2 & H3 & H4).
    step_cases; repeat split; try assumption; apply map_Forall_insert_2; eauto.
  - intros st a r H Hi. step_cases; exact Hi.
  - intros st Hi. unfold final_check. case_match; exact Hi.
Qed.

Lemma step_keys_ok st a st' : step st a = Next st' -> keys_ok st -> keys_ok st'.
Proof.
  unfold keys_ok. intros H Hk. step_cases; rewrite ?dom_insert_L;
    try match goal with E : command_name st = None |- _ => rewrite E in Hk end;
    set_solver.
Qed.

Lemma step_stop_maps st a r :
  step st a = Stop r ->
  strings (fst r) = strings (ps_args st) /\ integers (fst r) = integers (ps_args st) /\
  floats (fst r) = floats (ps_args st).
Proof. intros H. step_cases; repeat split. Qed.

Lemma keys_conclude app st k :
  (exists seen, cmd_inv seen st) -> commands (ps_app st) = commands app -> keys_ok st ->
  is_Some (strings (ps_args st) !! k) \/ is_Some (integers (ps_args st) !! k) \/
  is_Some (floats (ps_args st) !! k) ->
  k = None \/ exists c e, k = Some c /\ commands app !! c = Some e.
Proof.
  intros [seen Hi] Hc Hk Hin. unfold keys_ok in Hk.
  assert (Hk' : k ∈ ({[ None; command_name st ]} : gset (option string))).
  { apply Hk. rewrite !elem_of_union, !elem_of_dom. tauto. }
  rewrite elem_of_union, !elem_of_singleton in Hk'.
  destruct Hk' as [-> | ->]; [left; reflexivity|].
  destruct Hi as [(-> & _) | (c & e & -> & _ & Hl & _)]; [left; reflexivity|].
  right. exists c, e. rewrite <- Hc. auto.
Qed.

(** The string, integer and float maps are keyed only by NULL or by the name of a registered command. *)
Theorem parse_value_keys argv app k :
  is_Some (strings (fst (parse_argv argv app)) !! k) \/
  is_Some (integers (fst (parse_argv argv app)) !! k) \/
  is_Some (floats (fst (parse_argv argv app)) !! k) ->
  k = None \/ exists c e, k = Some c /\ commands app !! c = Some e.
Proof.
  revert k.
  apply (parse_argv_ind
    (fun st => (exists seen, cmd_inv seen st) /\ commands (ps_app st) = commands app /\ keys_ok st)
    (fun r => forall k,
       is_Some (strings (fst r) !! k) \/ is_Some (integers (fst r) !! k) \/
       is_Some (floats (fst r) !! k) ->
       k = None \/ exists c e, k = Some c /\ commands app !! c = Some e)).
  - refine (conj (ex_intro _ [] (cmd_inv_init app)) (conj eq_refl _)).
    unfold keys_ok. simpl. rewrite !dom_empty_L. set_solver.
  - intros st a st' H ([seen Hi] & Hc & Hk).
    refine (conj _ (conj _ (step_keys_ok _ _ _ H Hk))).
    + exists (seen ++ [a])%list. exact (step_cmd_inv _ _ _ _ H Hi).
    + destruct (step_commands _ _ _ H). congruence.
  - intros st a r H (Hi & Hc & Hk) k Hin.
    destruct (step_stop_maps _ _ _ H) as (E1 & E2 & E3). rewrite E1, E2, E3 in Hin.
    exact (keys_conclude app st k Hi Hc Hk Hin).
  - intros st (Hi & Hc & Hk) k Hin. unfold final_check in Hin.
    apply (keys_conclude app st k Hi Hc Hk). case_match; exact Hin.
Qed.

End Extra.

(** ** Registration *)

Lemma has_value_false app x :
  cli_has_value app x = false -> flags app !! x = None /\ commands app !! x = None.
Proof.
  unfold cli_has_value. intros H. apply orb_false_iff in H as [H1 H2].
  apply bool_decide_eq_false in H1, H2. split; apply eq_None_not_Some; assumption.
Qed.

Lemma has_value_insert_flag app n v x :
  cli_has_value (set_flags app (<[n := v]> (flags app))) x = bool_decide (x = n) || cli_has_value app x.
Proof.
  unfold cli_has_value. simpl. destruct (decide (x = n)) as [->|Hne].
  - rewrite lookup_insert_eq, (bool_decide_eq_true_2 (is_Some (Some v))) by (eexists; reflexivity).
    rewrite (bool_decide_eq_true_2 (n = n)) by reflexivity. reflexivity.
  - rewrite lookup_insert_ne by congruence. rewrite (bool_decide_eq_false_2 (x = n)) by assumption.
    reflexivity.
Qed.

Lemma has_value_insert_command app n v x :
  cli_has_value (set_commands app (<[n := v]> (commands app))) x =
    bool_decide (x = n) || cli_has_value app x.
Proof.
  unfold cli_has_value. simpl. destruct (decide (x = n)) as [->|Hne].
  - rewrite lookup_insert_eq, (bool_decide_eq_true_2 (is_Some (Some v))) by (eexists; reflexivity).
    rewrite (bool_decide_eq_true_2 (n = n)) by reflexivity. rewrite orb_true_r. reflexivity.
  - rewrite lookup_insert_ne by congruence. rewrite (bool_decide_eq_false_2 (x = n)) by assumption.
    reflexivity.
Qed.

(** [cli_insert_flag] refuses a name already registered and leaves the schema as it was; it succeeds exactly when the name is new and the alias, if any, differs from the name and is new too. *)
Theorem cli_insert_flag_outcome app n v :
  (cli_has_value app n = true -> cli_insert_flag app n v = (false, app)) /\
  (fst (cli_insert_flag app n v) = true <->
   cli_has_value app n = false /\
   match alias v with Some al => al <> n /\ cli_has_value app al = false | None => True end).
Proof.
  unfold cli_insert_flag. split; [intros ->; reflexivity|].
  destruct (cli_has_value app n) eqn:Hn; simpl; [intuition congruence|].
  destruct (alias v) as [al|].
  - rewrite has_value_insert_flag. case_bool_decide; simpl; [intuition congruence|].
    destruct (cli_has_value app al); simpl; intuition congruence.
  - simpl. intuition congruence.
Qed.

(** [cli_insert_command] refuses a name already registered (schema untouched), succeeds exactly when name and alias are new and distinct, never changes the flags, and on success adds the entry under its name and alias. *)
Theorem cli_insert_command_outcome app n v :
  (cli_has_value app n = true -> cli_insert_command app n v = (false, app)) /\
  (fst (cli_insert_command app n v) = true <->
   cli_has_value app n = false /\
   match alias v with Some al => al <> n /\ cli_has_value app al = false | None => True end) /\
  flags (snd (cli_insert_command app n v)) = flags app /\
  (fst (cli_insert_command app n v) = true ->
   commands (snd (cli_insert_command app n v)) =
     match alias v with
     | Some al => <[al := v]> (<[n := v]> (commands app))
     | None => <[n := v]> (commands app)
     end).
Proof.
  unfold cli_insert_command. refine (conj _ (conj _ (conj _ _))).
  - intros ->. reflexivity.
  - destruct (cli_has_value app n) eqn:Hn; simpl; [intuition congruence|].
    destruct (alias v) as [al|].
    + rewrite has_value_insert_command. case_bool_decide; simpl; [intuition congruence|].
      destruct (cli_has_value app al); simpl; intuition congruence.
    + simpl. intuition congruence.
  - destruct (cli_has_value app n); [reflexivity|].
    destruct (alias v) as [al|]; [destruct (cli_has_value _ al)|]; reflexivity.
  - destruct (cli_has_value app n); simpl; [discriminate|].
    destruct (alias v) as [al|]; [destruct (cli_has_value _ al); simpl; [discriminate|]|];
      intros _; reflexivity.
Qed.

Lemma register_inv app r :
  flags app ##ₘ commands app -> required_flags app ⊆ flags app ->
  map_Forall (fun _ v => required v = true) (required_flags app) ->
  flags (register app r) ##ₘ commands (register app r) /\
  required_flags (register app r) ⊆ flags (register app r) /\
  map_Forall (fun _ v => required v = true) (required_flags (register app r)).
Proof.
  intros Hd Hs Hr. destruct r as [n v|n v]; simpl.
  - unfold cli_insert_flag. destruct (cli_has_value app n) eqn:Hn; [simpl; auto|].
    destruct (has_value_false _ _ Hn) as [Hfn Hcn].
    assert (Hd1 : <[n := v]> (flags app) ##ₘ commands app) by (apply map_disjoint_insert_l_2; auto).
    assert (Hs1 : required_flags app ⊆ <[n := v]> (flags app))
      by (transitivity (flags app); [exact Hs | apply insert_subseteq; exact Hfn]).
    destruct (alias v) as [al|].
    + rewrite has_value_insert_flag.
      destruct (bool_decide (al = n) || cli_has_value app al) eqn:Ha; simpl; [auto|].
      apply orb_false_iff in Ha as [Ha1 Ha2]. apply bool_decide_eq_false in Ha1.
      destruct (has_value_false _ _ Ha2) as [Hfa Hca].
      assert (Hna : <[n := v]> (flags app) !! al = None)
        by (rewrite lookup_insert_ne by congruence; exact Hfa).
      assert (Hd2 : <[al := v]> (<[n := v]> (flags app)) ##ₘ commands app)
        by (apply map_disjoint_insert_l_2; auto).
      destruct (required v) eqn:Hrv; simpl; refine (conj Hd2 (conj _ _)).
      * transitivity (<[n := v]> (flags app)); [apply insert_mono; exact Hs|].
        apply insert_subseteq. exact Hna.
      * apply map_Forall_insert_2; assumption.
      * transitivity (<[n := v]> (flags app)); [exact Hs1|]. apply insert_subseteq. exact Hna.
      * exact Hr.
    + destruct (required v) eqn:Hrv; simpl; refine (conj Hd1 (conj _ _)).
      * apply insert_mono. exact Hs.
      * apply map_Forall_insert_2; assumption.
      * exact Hs1.
      * exact Hr.
  - unfold cli_insert_command. destruct (cli_has_value app n) eqn:Hn; [simpl; auto|].
    destruct (has_value_false _ _ Hn) as [Hfn Hcn].
    assert (Hd1 : flags app ##ₘ <[n := v]> (commands app)) by (apply map_disjoint_insert_r_2; auto).
    destruct (alias v) as [al|].
    + rewrite has_value_insert_command.
      destruct (bool_decide (al = n) || cli_has_value app al) eqn:Ha; simpl; [auto|].
      apply orb_false_iff in Ha as [Ha1 Ha2].
      destruct (has_value_false _ _ Ha2) as [Hfa Hca].
      refine (conj _ (conj Hs Hr)). apply map_disjoint_insert_r_2; auto.
    + simpl. auto.
Qed.

Lemma fold_register_inv (regs : list registration) app :
  flags app ##ₘ commands app -> required_flags app ⊆ flags app ->
  map_Forall (fun _ v => required v = true) (required_flags app) ->
  let app' := fold_left register regs app in
  flags app' ##ₘ commands app' /\ required_flags app' ⊆ flags app' /\
  map_Forall (fun _ v => required v = true) (required_flags app').
Proof.
  revert app. induction regs as [|r regs IH]; intros app Hd Hs Hr; simpl; [auto|].
  destruct (register_inv app r Hd Hs Hr) as (Hd' & Hs' & Hr'). exact (IH _ Hd' Hs' Hr').
Qed.

Lemma new_app_inv :
  flags cli_new_app ##ₘ commands cli_new_app /\ required_flags cli_new_app ⊆ flags cli_new_app /\
  map_Forall (fun _ v => required v = true) (required_flags cli_new_app).
Proof. refine (conj (map_disjoint_empty_l _) (conj _ (map_Forall_empty _))). reflexivity. Qed.

(** After any sequence of flag and command registrations starting from [cli_new_app], no key is both a flag and a command, every required flag is a registered flag, and every entry of the required map is marked required. *)
Theorem registrations_invariant (regs : list registration) :
  let app := fold_left register regs cli_new_app in
  flags app ##ₘ commands app /\ required_flags app ⊆ flags app /\
  map_Forall (fun _ v => required v = true) (required_flags app).
Proof.
  destruct new_app_inv as (Hd & Hs & Hr). exact (fold_register_inv regs _ Hd Hs Hr).
Qed.

Lemma parse_required_subseteq atoi_convert atof malloc_cell argv app :
  required_flags (snd (parse_argv atoi_convert atof malloc_cell argv app)) ⊆ required_flags app.
Proof.
  apply (parse_argv_ind atoi_convert atof malloc_cell
           (fun st => required_flags (ps_app st) ⊆ required_flags app)
           (fun r => required_flags (snd r) ⊆ required_flags app)).
  - reflexivity.
  - intros st a st' H Hs. rewrite (step_next_app _ _ _ _ _ _ H). simpl.
    transitivity (required_flags (ps_app st)); [|exact Hs].
    destruct (flag_token_name a); simpl; [apply delete_subseteq|reflexivity].
  - intros st a r H Hs. transitivity (required_flags (ps_app st)); [|exact Hs].
    exact (step_stop_required _ _ _ _ _ _ H).
  - intros st Hs. rewrite final_check_app. exact Hs.
Qed.

(** Parsing any argv against a registered schema keeps the three registration invariants on the schema it hands back. *)
Theorem parse_keeps_registration_invariant (regs : list registration) atoi_convert atof malloc_cell argv :
  let app := snd (parse_argv atoi_convert atof malloc_cell argv (fold_left register regs cli_new_app)) in
  flags app ##ₘ commands app /\ required_flags app ⊆ flags app /\
  map_Forall (fun _ v => required v = true) (required_flags app).
Proof.
  destruct new_app_inv as (Hd & Hs & Hr).
  destruct (fold_register_inv regs _ Hd Hs Hr) as (Hd' & Hs' & Hr').
  set (app0 := fold_left register regs cli_new_app) in *.
  pose proof (parse_required_subseteq atoi_convert atof malloc_cell argv app0) as Hsub.
  destruct (parse_flags_commands atoi_convert atof malloc_cell argv app0) as [Hf Hc].
  simpl. rewrite Hf, Hc. refine (conj Hd' (conj _ _)).
  - transitivity (required_flags app0); assumption.
  - intros k v Hk. apply (Hr' k v). eapply lookup_weaken; eassumption.
Qed.

(** ** Concrete instances of the further properties *)

Lemma parse_success_command_witness :
  exists c e, In c ["--out"; "f"; "build"; "x"] /\ commands app_out_build !! c = Some e /\
    cmd_ptr (fst (parse ["prog"; "--out"; "f"; "build"; "x"] app_out_build)) = Some e /\
    type e <> CLI_TYPE_STATIC /\
    required_flags (snd (parse ["prog"; "--out"; "f"; "build"; "x"] app_out_build)) = ∅.
Proof.
  refine (parse_success_command atoi_decimal atof_int malloc_junk ["prog"; "--out"; "f"; "build"; "x"]
            app_out_build _).
  vm_compute. reflexivity.
Defined.

Lemma parse_command_value_witness :
  command (fst (parse ("prog" :: ["--out"; "f"] ++ "build" :: "main.c" :: []) app_out_build)) =
    Some (mk_i_value (Some "main.c") None 0 PrimFloat.zero).
Proof.
  refine (parse_command_value atoi_decimal atof_int malloc_junk app_out_build ["--out"; "f"]
            (loop_state app_out_build ["--out"; "f"]) "build" build_entry "main.c" [] "prog"
            _ _ _ _ _ _ _ _ _);
    try (vm_compute; reflexivity); discriminate.
Defined.

Lemma parse_array_command_witness :
  (success (fst (parse ("prog" :: [] ++ "files" :: ["a"; "b"]) app_files)) = true <->
   required_flags (ps_app (ps_init app_files)) = ∅) /\
  command (fst (parse ("prog" :: [] ++ "files" :: ["a"; "b"]) app_files)) = Some command_init.
Proof.
  refine (let H := parse_array_command atoi_decimal atof_int malloc_junk app_files [] (ps_init app_files)
                     "files" files_entry ["a"; "b"] "prog" _ _ _ _ _ _ _ in
          conj (proj1 H) (proj1 (proj2 H)));
    try (vm_compute; reflexivity).
  repeat constructor.
Defined.

Lemma parse_flag_needs_value_witness :
  exists v rest', ["f"; "build"; "x"] = v :: rest' /\ is_flag_token v = false.
Proof.
  refine (parse_flag_needs_value atoi_decimal atof_int malloc_junk app_out_build [] "--out" "out" out_entry
            ["f"; "build"; "x"] "prog" _ _ _ _);
    try (vm_compute; reflexivity); discriminate.
Defined.

Lemma parse_single_dash_witness :
  success (fst (parse ("prog" :: ["--out"; "f"] ++ "-" :: ["build"; "x"]) app_out_build)) = false /\
  required_flags (snd (parse ("prog" :: ["--out"; "f"] ++ "-" :: ["build"; "x"]) app_out_build)) =
    remove_all (required_flags app_out_build) ["--out"; "f"].
Proof.
  refine (parse_single_dash atoi_decimal atof_int malloc_junk app_out_build ["--out"; "f"]
            (loop_state app_out_build ["--out"; "f"]) ["build"; "x"] "prog" _).
  vm_compute. reflexivity.
Defined.

Lemma parse_unexpected_word_witness :
  success (fst (parse ("prog" :: ["--out"; "f"] ++ "deploy" :: []) app_out_build)) = false /\
  required_flags (snd (parse ("prog" :: ["--out"; "f"] ++ "deploy" :: []) app_out_build)) =
    remove_all (required_flags app_out_build) ["--out"; "f"].
Proof.
  refine (parse_unexpected_word atoi_decimal atof_int malloc_junk app_out_build ["--out"; "f"]
            (loop_state app_out_build ["--out"; "f"]) "deploy" [] "prog" _ _ _ _);
    try (vm_compute; reflexivity).
  right. vm_compute. reflexivity.
Defined.

Lemma parse_no_arguments_witness :
  success (fst (parse ["prog"] app_verbose_build)) = false /\
  snd (parse ["prog"] app_verbose_build) = app_verbose_build /\
  statics (fst (parse ["prog"] app_verbose_build)) = ∅ /\
  strings (fst (parse ["prog"] app_verbose_build)) = ∅ /\
  integers (fst (parse ["prog"] app_verbose_build)) = ∅ /\
  floats (fst (parse ["prog"] app_verbose_build)) = ∅ /\
  arrays (fst (parse ["prog"] app_verbose_build)) = ∅ /\
  cmd_ptr (fst (parse ["prog"] app_verbose_build)) = None.
Proof.
  refine (parse_no_arguments atoi_decimal atof_int malloc_junk ["prog"] app_verbose_build _).
  simpl. lia.
Defined.

Lemma parse_value_keys_witness :
  Some "build" = None \/
  exists c e, Some "build" = Some c /\ commands app_n_build !! c = Some e.
Proof.
  refine (parse_value_keys atoi_decimal atof_int malloc_junk ["prog"; "build"; "x"; "--n"; "5"] app_n_build
            (Some "build") _).
  right. left. exists (cell (mk_i_value (Some "junk") (Some ["junk"]) 5 PrimFloat.one)). vm_compute. reflexivity.
Defined.

